(** * go-jsonnet: builtin operators and the static analyzer

    A shallow embedding of [builtins.go], [static_analyzer.go] and the parts
    of [ast/ast.go] they use.  Go functions over [(value, error)] become
    functions into a result type with a third outcome for Go panics; the
    evaluator handle [e] is a state monad whose state is the sequence of
    potential values forced so far, so that forcing order can be stated. *)

From Stdlib Require Import ZArith String Ascii List Bool Lia.
From Stdlib Require Import Floats.SpecFloat.
From stdpp Require Import base option list gmap strings fin_maps fin_sets.
From stdpp Require Import pretty.

Open Scope string_scope.
Open Scope list_scope.

(** ** float64

    Go's [float64] is IEEE-754 binary64.  [spec_float] with precision 53 and
    exponent bound 1024 is that format, with executable arithmetic
    (round to nearest, ties to even). *)
Module F64.

Definition prec : Z := 53.
Definition emax : Z := 1024.

Definition float64 : Type := spec_float.

Definition valid (x : float64) : bool := valid_binary prec emax x.

Definition zero : float64 := S754_zero false.
Definition add (x y : float64) : float64 := SFadd prec emax x y.
Definition sub (x y : float64) : float64 := SFsub prec emax x y.
Definition mul (x y : float64) : float64 := SFmul prec emax x y.
Definition div (x y : float64) : float64 := SFdiv prec emax x y.
Definition neg (x : float64) : float64 := SFopp x.
Definition eqb (x y : float64) : bool := SFeqb x y.
Definition ltb (x y : float64) : bool := SFltb x y.

(** [float64(i)] for an integer [i]. *)
Definition of_Z (i : Z) : float64 := binary_normalize prec emax i 0 false.

(** [math.IsNaN(x)] and [math.IsInf(x, 0)]. *)
Definition IsNaN (x : float64) : bool :=
  match x with S754_nan => true | _ => false end.
Definition IsInf (x : float64) : bool :=
  match x with S754_infinity _ => true | _ => false end.

Definition one : float64 := of_Z 1.

Definition is_finite (x : float64) : bool :=
  match x with
  | S754_zero _ | S754_finite _ _ _ => true
  | _ => false
  end.

(** The integer part of a finite float: its exact value, the signed
    mantissa times two to the exponent, with the fraction discarded
    ([Z.quot] rounds toward zero). *)
Definition trunc (x : float64) : Z :=
  match x with
  | S754_finite s m e =>
      Z.quot (cond_Zopp s (Zpos m) * 2 ^ Z.max e 0) (2 ^ Z.max (- e) 0)
  | _ => 0
  end.

Definition minInt64 : Z := - 2 ^ 63.
Definition maxInt64 : Z := 2 ^ 63 - 1.

(** [int64(x)] and, on a 64-bit platform, [int(x)]: the fraction is
    discarded; when the value does not fit (NaN, infinities, magnitude
    2^63 or more) Go leaves the result to the implementation, and amd64's
    conversion instruction produces the smallest int64. *)
Definition to_int64 (x : float64) : Z :=
  if is_finite x && (minInt64 <=? trunc x)%Z && (trunc x <=? maxInt64)%Z
  then trunc x
  else minInt64.

(** Wrap-around of an integer to int64. *)
Definition wrap64 (z : Z) : Z := ((z + 2 ^ 63) mod 2 ^ 64 - 2 ^ 63)%Z.

(** [uint(y)] for an int64 [y]. *)
Definition to_uint (y : Z) : Z := (y mod 2 ^ 64)%Z.

End F64.

Export F64.

(** ** ast/ast.go *)

Definition Identifier : Type := string.
Definition Identifiers : Type := list Identifier.

Inductive ASTType : Type :=
  | AST_APPLY | AST_APPLY_BRACE | AST_ARRAY | AST_ARRAY_COMPREHENSION
  | AST_ASSERT | AST_BINARY | AST_CONDITIONAL | AST_DESUGARED_OBJECT
  | AST_DOLLAR | AST_ERROR | AST_FUNCTION | AST_IMPORT | AST_IMPORTSTR
  | AST_INDEX | AST_SLICE | AST_IN_SUPER | AST_LITERAL_BOOLEAN
  | AST_LITERAL_NULL | AST_LITERAL_NUMBER | AST_LITERAL_STRING | AST_LOCAL
  | AST_OBJECT | AST_OBJECT_COMPREHENSION | AST_SELF | AST_SUPER_INDEX
  | AST_UNARY | AST_VAR.

Inductive BinaryOp : Type :=
  | BopMult | BopDiv | BopPercent
  | BopPlus | BopMinus
  | BopShiftL | BopShiftR
  | BopGreater | BopGreaterEq | BopLess | BopLessEq | BopIn
  | BopManifestEqual | BopManifestUnequal
  | BopBitwiseAnd | BopBitwiseXor | BopBitwiseOr
  | BopAnd | BopOr.

Inductive UnaryOp : Type := UopNot | UopBitwiseNot | UopPlus | UopMinus.

Inductive ObjectFieldHide : Type :=
  | ObjectFieldHidden    (* f:: e *)
  | ObjectFieldInherit   (* f: e *)
  | ObjectFieldVisible.  (* f::: e *)

#[global] Instance ObjectFieldHide_eq_dec : EqDecision ObjectFieldHide.
Proof. solve_decision. Defined.

(** The node kinds [analyzeVisit] has a case for carry their children; the
    kinds it has no case for (the surface forms a desugarer removes) are
    [Sugar ty], whose children the analyzer never reaches.  Source
    locations and the context string of [NodeBase] are left out. *)
#[local] Unset Elimination Schemes.
Inductive Node : Type :=
  | Apply (Target : Node) (Positional : list Node)
          (Named : list (Identifier * Node))
  | Array (Elements : list Node)
  | Binary (Left : Node) (Op : BinaryOp) (Right : Node)
  | Conditional (Cond BranchTrue BranchFalse : Node)
  | DesugaredObject (Asserts : list Node) (Fields : list DesugaredObjectField)
  | Error (Expr : Node)
  | Function (Required : Identifiers) (Optional : list (Identifier * Node))
             (Body : Node)
  | Import (File : string)
  | ImportStr (File : string)
  | InSuper (Index : Node)
  | SuperIndex (Index : Node)
  | Index (Target Index : Node)
  | Local (Binds : list (Identifier * Node)) (Body : Node)
  | LiteralBoolean (Value : bool)
  | LiteralNull
  | LiteralNumber (Value : float64) (OriginalString : string)
  | LiteralString (Value : string)
  | Self
  | Unary (Op : UnaryOp) (Expr : Node)
  | Var (Id : Identifier)
  | Sugar (ty : ASTType)
with DesugaredObjectField : Type :=
  | mkDesugaredObjectField (Hide : ObjectFieldHide) (Name Body : Node)
                           (PlusSuper : bool).
#[local] Set Elimination Schemes.

(** ** Errors and outcomes

    A Go [error] value.  [StaticError] is [parser.MakeStaticError] and
    [RuntimeError] is [e.Error]; both keep their message and drop the
    location and the trace.  The evaluator's two type-error constructors
    ([typeErrorSpecific], [typeErrorGeneral]) are not in these files: a type
    error records the typename that was expected, if one was, and the
    typename that was found, and leaves the wording of the message out. *)
Inductive error : Type :=
  | StaticError (msg : string)
  | RuntimeError (msg : string)
  | TypeError (expected : option string) (actual : string).

(** What a Go call comes to: a value with a nil error, a non-nil error, or
    a panic. *)
Inductive result (A : Type) : Type :=
  | Ok (a : A)
  | Err (e : error)
  | Panic (msg : string).
Arguments Ok {A} a.
Arguments Err {A} e.
Arguments Panic {A} msg.

(** ** static_analyzer.go *)

(** [ast.IdentifierSet], with [Add], [Remove], [Contains], [Append] and
    [Clone] as the set operations they name. *)
Abbreviation IdentifierSet := (gset Identifier).

(** [analysisState].  [err] is only ever set once and [freeVars] is only
    read when [err] is nil, so the state is the error, or the set of free
    variables gathered while there is none. *)
Definition analysisState : Type := result IdentifierSet.

(** [visitNext a inObject vars state], given what [analyzeVisit a inObject
    vars] comes to.  A state that already holds an error does not visit
    [a]. *)
Definition visitNext (visit : result IdentifierSet)
    (state : analysisState) : analysisState :=
  match state with
  | Ok freeVars =>
      match visit with
      | Ok fv => Ok (freeVars ∪ fv)
      | Err e => Err e
      | Panic msg => Panic msg
      end
  | _ => state
  end.

(** [s.freeVars.Remove] for every identifier of [ids]. *)
Definition removeAll (ids : Identifiers) (s : analysisState) : analysisState :=
  match s with
  | Ok freeVars => Ok (freeVars ∖ list_to_set ids)
  | _ => s
  end.

(** [analyzeVisit] returns the error, or with a nil error the free
    variables it has stored in the node. *)
Fixpoint analyzeVisit (a : Node) (inObject : bool) (vars : IdentifierSet)
    {struct a} : result IdentifierSet :=
  let s : analysisState := Ok ∅ in
  match a with
  | Apply target positional named =>
      let s := visitNext (analyzeVisit target inObject vars) s in
      let s := fold_left (fun s arg =>
                 visitNext (analyzeVisit arg inObject vars) s) positional s in
      fold_left (fun s arg =>
        visitNext (analyzeVisit (snd arg) inObject vars) s) named s
  | Array elements =>
      fold_left (fun s elem =>
        visitNext (analyzeVisit elem inObject vars) s) elements s
  | Binary lhs _ rhs =>
      let s := visitNext (analyzeVisit lhs inObject vars) s in
      visitNext (analyzeVisit rhs inObject vars) s
  | Conditional cond branchTrue branchFalse =>
      let s := visitNext (analyzeVisit cond inObject vars) s in
      let s := visitNext (analyzeVisit branchTrue inObject vars) s in
      visitNext (analyzeVisit branchFalse inObject vars) s
  | Error expr => visitNext (analyzeVisit expr inObject vars) s
  | Function required optional body =>
      let newVars := list_to_set (required ++ map fst optional) ∪ vars in
      let s := fold_left (fun s param =>
                 visitNext (analyzeVisit (snd param) inObject newVars) s)
                 optional s in
      let s := visitNext (analyzeVisit body inObject newVars) s in
      removeAll (required ++ map fst optional) s
  | Import _ => s
  | ImportStr _ => s
  | InSuper index =>
      if inObject then visitNext (analyzeVisit index inObject vars) s
      else Err (StaticError "Can't use super outside of an object.")
  | SuperIndex index =>
      if inObject then visitNext (analyzeVisit index inObject vars) s
      else Err (StaticError "Can't use super outside of an object.")
  | Index target index =>
      let s := visitNext (analyzeVisit target inObject vars) s in
      visitNext (analyzeVisit index inObject vars) s
  | Local binds body =>
      let newVars := list_to_set (map fst binds) ∪ vars in
      let s := fold_left (fun s bind =>
                 visitNext (analyzeVisit (snd bind) inObject newVars) s)
                 binds s in
      let s := visitNext (analyzeVisit body inObject newVars) s in
      removeAll (map fst binds) s
  | LiteralBoolean _ => s
  | LiteralNull => s
  | LiteralNumber _ _ => s
  | LiteralString _ => s
  | DesugaredObject asserts fields =>
      let s := fold_left (fun s field =>
                 match field with
                 | mkDesugaredObjectField _ name body _ =>
                     (* Field names are calculated outside of the object *)
                     let s := visitNext (analyzeVisit name inObject vars) s in
                     visitNext (analyzeVisit body true vars) s
                 end) fields s in
      fold_left (fun s assert =>
        visitNext (analyzeVisit assert true vars) s) asserts s
  | Self =>
      if inObject then s
      else Err (StaticError "Can't use self outside of an object.")
  | Unary _ expr => visitNext (analyzeVisit expr inObject vars) s
  | Var id =>
      if decide (id ∈ vars) then Ok ({[id]} ∪ ∅)
      else Err (StaticError ("Unknown variable: " +:+ id))
  | Sugar _ => Panic "Unexpected node"
  end.

Definition analyze (node : Node) : result IdentifierSet :=
  analyzeVisit node false {["std"]}.

(** *** What the analyzer is to reject

    [violation inObject vars a]: the tree [a], met where [vars] are the
    identifiers in scope and [inObject] tells whether the place is inside an
    object, contains a [Var] whose identifier is not in its scope, or a
    [Self], [SuperIndex] or [InSuper] outside any object.  The parameters of
    a function are in scope in its default arguments and its body, the
    variables of a local in all its bindings and its body; the bodies of
    the fields and the assertions of an object are inside it, and the names
    of its fields are outside. *)
Inductive violation : bool -> IdentifierSet -> Node -> Prop :=
  | viol_Var inObject vars id :
      id ∉ vars -> violation inObject vars (Var id)
  | viol_Self vars : violation false vars Self
  | viol_SuperIndex vars index : violation false vars (SuperIndex index)
  | viol_InSuper vars index : violation false vars (InSuper index)
  | viol_SuperIndex_index inObject vars index :
      violation inObject vars index ->
      violation inObject vars (SuperIndex index)
  | viol_InSuper_index inObject vars index :
      violation inObject vars index ->
      violation inObject vars (InSuper index)
  | viol_Apply_target inObject vars target positional named :
      violation inObject vars target ->
      violation inObject vars (Apply target positional named)
  | viol_Apply_positional inObject vars target positional named arg :
      arg ∈ positional -> violation inObject vars arg ->
      violation inObject vars (Apply target positional named)
  | viol_Apply_named inObject vars target positional named arg :
      arg ∈ named -> violation inObject vars arg.2 ->
      violation inObject vars (Apply target positional named)
  | viol_Array inObject vars elements elem :
      elem ∈ elements -> violation inObject vars elem ->
      violation inObject vars (Array elements)
  | viol_Binary_left inObject vars lhs op rhs :
      violation inObject vars lhs ->
      violation inObject vars (Binary lhs op rhs)
  | viol_Binary_right inObject vars lhs op rhs :
      violation inObject vars rhs ->
      violation inObject vars (Binary lhs op rhs)
  | viol_Conditional_cond inObject vars cond branchTrue branchFalse :
      violation inObject vars cond ->
      violation inObject vars (Conditional cond branchTrue branchFalse)
  | viol_Conditional_true inObject vars cond branchTrue branchFalse :
      violation inObject vars branchTrue ->
      violation inObject vars (Conditional cond branchTrue branchFalse)
  | viol_Conditional_false inObject vars cond branchTrue branchFalse :
      violation inObject vars branchFalse ->
      violation inObject vars (Conditional cond branchTrue branchFalse)
  | viol_Error inObject vars expr :
      violation inObject vars expr -> violation inObject vars (Error expr)
  | viol_Unary inObject vars op expr :
      violation inObject vars expr -> violation inObject vars (Unary op expr)
  | viol_Function_default inObject vars required optional body param :
      param ∈ optional ->
      violation inObject
        (list_to_set (required ++ map fst optional) ∪ vars) param.2 ->
      violation inObject vars (Function required optional body)
  | viol_Function_body inObject vars required optional body :
      violation inObject
        (list_to_set (required ++ map fst optional) ∪ vars) body ->
      violation inObject vars (Function required optional body)
  | viol_Index_target inObject vars target index :
      violation inObject vars target ->
      violation inObject vars (Index target index)
  | viol_Index_index inObject vars target index :
      violation inObject vars index ->
      violation inObject vars (Index target index)
  | viol_Local_bind inObject vars binds body bind_ :
      bind_ ∈ binds ->
      violation inObject (list_to_set (map fst binds) ∪ vars) bind_.2 ->
      violation inObject vars (Local binds body)
  | viol_Local_body inObject vars binds body :
      violation inObject (list_to_set (map fst binds) ∪ vars) body ->
      violation inObject vars (Local binds body)
  | viol_Object_name inObject vars asserts fields hd fname fbody ps :
      mkDesugaredObjectField hd fname fbody ps ∈ fields ->
      violation inObject vars fname ->
      violation inObject vars (DesugaredObject asserts fields)
  | viol_Object_body inObject vars asserts fields hd fname fbody ps :
      mkDesugaredObjectField hd fname fbody ps ∈ fields ->
      violation true vars fbody ->
      violation inObject vars (DesugaredObject asserts fields)
  | viol_Object_assert inObject vars asserts fields assert :
      assert ∈ asserts -> violation true vars assert ->
      violation inObject vars (DesugaredObject asserts fields).

(** A tree made of the node kinds [analyzeVisit] has a case for. *)
Fixpoint desugared (a : Node) : bool :=
  match a with
  | Apply target positional named =>
      desugared target && forallb desugared positional
      && forallb (fun arg => desugared arg.2) named
  | Array elements => forallb desugared elements
  | Binary lhs _ rhs => desugared lhs && desugared rhs
  | Conditional cond branchTrue branchFalse =>
      desugared cond && desugared branchTrue && desugared branchFalse
  | DesugaredObject asserts fields =>
      forallb desugared asserts
      && forallb (fun fld =>
           match fld with
           | mkDesugaredObjectField _ fname fbody _ =>
               desugared fname && desugared fbody
           end) fields
  | Error expr => desugared expr
  | Function _ optional body =>
      forallb (fun param => desugared param.2) optional && desugared body
  | InSuper index => desugared index
  | SuperIndex index => desugared index
  | Index target index => desugared target && desugared index
  | Local binds body =>
      forallb (fun bind_ => desugared bind_.2) binds && desugared body
  | Unary _ expr => desugared expr
  | Sugar _ => false
  | _ => true
  end.

(** ** Runtime values

    The value types of the interpreter, as far as [builtins.go] looks into
    them.  A [potentialValue] is something that can be forced: a
    [readyValue] holding its value, a [thunk] that comes to [content] when
    forced, or the call thunk that [fun.call(args)] builds.  A
    [bindingFrame] is a map from identifiers to potential values; Go's nil
    frame is the empty map. *)
#[local] Unset Elimination Schemes.
Inductive value : Type :=
  | valueNull
  | valueBoolean (b : bool)
  | valueNumber (x : float64)
  | valueString (s : string)
  | valueArray (elements : list potentialValue)
  | valueFunction (ec : evalCallable)
  | valueOfObject (o : valueObject)
with valueObject : Type :=
  | valueSimpleObject (upValues : gmap Identifier potentialValue)
      (fields : gmap string valueSimpleObjectField)
      (asserts : list unboundField)
  | valueExtendedObject (left right : valueObject)
with valueSimpleObjectField : Type :=
  | mkValueSimpleObjectField (hide : ObjectFieldHide) (field : unboundField)
with unboundField : Type :=
  | codeUnboundField (body : Node)
  | bindingsUnboundField (inner : unboundField)
      (bindings : gmap Identifier potentialValue)
with potentialValue : Type :=
  | readyValue (content : value)
  | thunk (name : Identifier) (content : result value)
  | callThunk (function : evalCallable) (args : list potentialValue)
with evalCallable : Type :=
  | closure (env : gmap Identifier potentialValue) (function : Node)
  | builtin (name : Identifier).
#[local] Set Elimination Schemes.

Abbreviation bindingFrame := (gmap Identifier potentialValue).
Abbreviation valueSimpleObjectFieldMap := (gmap string valueSimpleObjectField).

Definition hide (f : valueSimpleObjectField) : ObjectFieldHide :=
  match f with mkValueSimpleObjectField h _ => h end.
Definition field (f : valueSimpleObjectField) : unboundField :=
  match f with mkValueSimpleObjectField _ u => u end.

(** Modelled from the spec: [typename] is a method of the value types, which
    are not in these files; "each value carries a typename string", one of
    the seven listed. *)
Definition typename (v : value) : string :=
  match v with
  | valueNull => "null"
  | valueBoolean _ => "boolean"
  | valueNumber _ => "number"
  | valueString _ => "string"
  | valueArray _ => "array"
  | valueFunction _ => "function"
  | valueOfObject _ => "object"
  end.

(** The constructors of value.go, which only fill in the struct. *)
Definition makeValueNumber (x : float64) : value := valueNumber x.
Definition makeValueBoolean (b : bool) : value := valueBoolean b.
Definition makeValueString (s : string) : value := valueString s.
Definition makeValueArray (elems : list potentialValue) : value :=
  valueArray elems.
Definition makeValueExtendedObject (l r : valueObject) : value :=
  valueOfObject (valueExtendedObject l r).
Definition makeValueSimpleObject (b : bindingFrame)
    (fields : valueSimpleObjectFieldMap) (asserts : list unboundField) : value :=
  valueOfObject (valueSimpleObject b fields asserts).
Definition intToValue (i : Z) : value := makeValueNumber (F64.of_Z i).

(** Modelled from the spec: [concatStrings], [concatArrays], [stringEqual]
    and [stringLessThan] are helpers of value.go; strings and arrays are
    sequences, "concatenation" joins them, and strings compare
    lexicographically, element by element. *)
Definition concatStrings (a b : string) : value := valueString (a +:+ b).
Definition concatArrays (a b : list potentialValue) : value :=
  valueArray (a ++ b).
Definition stringEqual (a b : string) : bool := String.eqb a b.
Definition stringLessThan (a b : string) : bool := String.ltb a b.

(** Modelled from the spec: [length] of a string value, a method of
    value.go: "string: code-point count".  A string value holds code
    points, written here as their UTF-8 bytes, so its length is the number
    of bytes that start a code point: every byte but the continuation
    bytes [10xxxxxx]. *)
Definition isContinuation (c : ascii) : bool :=
  let n := N_of_ascii c in (128 <=? n)%N && (n <? 192)%N.

Fixpoint valueString_length (s : string) : nat :=
  match s with
  | EmptyString => 0
  | String c rest =>
      ((if isContinuation c then 0 else 1) + valueString_length rest)%nat
  end.

(** The continuation byte with the low six bits of [x]. *)
Definition continuationByte (x : N) : ascii := ascii_of_N (128 + x mod 64).

(** Go's [string(r)] for a code point [r]: its UTF-8 bytes, those of U+FFFD
    when [r] is a surrogate half or lies above U+10FFFF. *)
Definition encodeRune (r : N) : string :=
  if (r <? 128)%N then String (ascii_of_N r) ""
  else if (r <? 2048)%N then
    String (ascii_of_N (192 + r / 64)) (String (continuationByte r) "")
  else if ((1114111 <? r) || (55296 <=? r) && (r <=? 57343))%N then
    String "239" (String "191" (String "189" ""))
  else if (r <? 65536)%N then
    String (ascii_of_N (224 + r / 4096))
      (String (continuationByte (r / 64)) (String (continuationByte r) ""))
  else
    String (ascii_of_N (240 + r / 262144))
      (String (continuationByte (r / 4096))
         (String (continuationByte (r / 64))
            (String (continuationByte r) ""))).

(** Go's [string(runes)]. *)
Definition runesToString (runes : list N) : string :=
  foldr (fun r s => encodeRune r +:+ s) "" runes.

(** ** The evaluator handle *)

(** The potential values forced so far, oldest first. *)
Definition forced : Type := list potentialValue.

(** A computation with the evaluator [e] in hand. *)
Definition M (A : Type) : Type := forced -> result A * forced.

Definition ret {A} (a : A) : M A := fun st => (Ok a, st).
Definition fail {A} (err : error) : M A := fun st => (Err err, st).
Definition panic {A} (msg : string) : M A := fun st => (Panic msg, st).
Definition bind {A B} (m : M A) (k : A -> M B) : M B :=
  fun st =>
    match m st with
    | (Ok a, st') => k a st'
    | (Err err, st') => (Err err, st')
    | (Panic msg, st') => (Panic msg, st')
    end.

Notation "'let*' x ':=' m 'in' k" := (bind m (fun x => k))
  (at level 10, x name, m at level 100, k at level 200,
   format "'[v' 'let*'  x  ':='  m  'in'  '/' k ']'").

(** [e.Error(msg)] and the two type errors. *)
Definition Error_ (msg : string) : error := RuntimeError msg.
Definition typeErrorSpecific (bad : value) (good : string) : error :=
  TypeError (Some good) (typename bad).
Definition typeErrorGeneral (bad : value) : error :=
  TypeError None (typename bad).

(** ** The object engine

    [objectFields] belongs to value.go, which is not among these files. *)

Inductive Hidden : Type := withHidden | withoutHidden.

#[global] Instance Hidden_eq_dec : EqDecision Hidden.
Proof. solve_decision. Defined.

Definition withHiddenFromBool (b : bool) : Hidden :=
  if b then withHidden else withoutHidden.

(** Whether a field with hide flag [hd] is listed under [h]. *)
Definition listed (h : Hidden) (hd : ObjectFieldHide) : Prop :=
  hd ≠ ObjectFieldHidden ∨ h = withHidden.

#[global] Instance listed_dec h hd : Decision (listed h hd).
Proof. unfold listed. apply _. Defined.

(** Modelled from the spec: [objectFields] (field enumeration).  "For a
    simple object it is {name | hide ≠ hidden ∨ h = include}.  For an
    extended object L+R, it is the union of fields(L,h) and fields(R,h)." *)
Fixpoint objectFieldsSet (obj : valueObject) (h : Hidden) : gset string :=
  match obj with
  | valueSimpleObject _ fields _ =>
      dom (filter (fun kv => listed h (hide kv.2)) fields)
  | valueExtendedObject l r => objectFieldsSet l h ∪ objectFieldsSet r h
  end.

Definition objectFields (obj : valueObject) (h : Hidden) : list string :=
  elements (objectFieldsSet obj h).

(** What is inside a simple object: its upValues, its field table and its
    assertions. *)
Definition simpleObject : Type :=
  bindingFrame * valueSimpleObjectFieldMap * list unboundField.

Definition ofSimple (o : simpleObject) : value :=
  valueOfObject (valueSimpleObject o.1.1 o.1.2 o.2).

(** The field table of [o] as [$objectFlatMerge] copies it: each field
    keeps its hide flag, and its unbound-field is wrapped in a
    [bindingsUnboundField] with the upValues of [o]. *)
Definition copiedFields (o : simpleObject) : valueSimpleObjectFieldMap :=
  (fun f => mkValueSimpleObjectField (hide f)
              (bindingsUnboundField (field f) o.1.1)) <$> o.1.2.

(** The field names of the objects, object by object. *)
Definition allFieldNames (objs : list simpleObject) : list string :=
  objs ≫= (fun o : simpleObject => elements (dom o.1.2)).

(** [fieldName] is a field of two of the objects. *)
Definition definedTwice (objs : list simpleObject) (fieldName : string)
    : Prop :=
  exists i j oi oj,
    (i < j)%nat /\ objs !! i = Some oi /\ objs !! j = Some oj
    /\ is_Some (oi.1.2 !! fieldName) /\ is_Some (oj.1.2 !! fieldName).

(** Modelled from the spec: [duplicateFieldNameErrMsg]; duplicates fail with
    "duplicate field name: <n>". *)
Definition duplicateFieldNameErrMsg (fieldName : string) : string :=
  "duplicate field name: " +:+ fieldName.

(** The builtin types of builtins.go. *)
Definition binaryBuiltin : Type := potentialValue -> potentialValue -> M value.

Record BinaryBuiltin : Type := mkBinaryBuiltin {
  name : Identifier;
  function : binaryBuiltin;
  parameters : Identifiers
}.

Section Evaluator.

(** What the builtins use and these files do not define: the call of a
    function value, JSON manifestation, and [math.Mod]. *)
Variable EvalCall : evalCallable -> list potentialValue -> result value.
Variable manifestJSON : value -> result string.
Variable Mod : float64 -> float64 -> float64.

(** [pv.getValue]. *)
Definition getValue (pv : potentialValue) : result value :=
  match pv with
  | readyValue content => Ok content
  | thunk _ content => content
  | callThunk function args => EvalCall function args
  end.

(** [e.evaluate(pv)] forces [pv]. *)
Definition evaluate (pv : potentialValue) : M value :=
  fun st => (getValue pv, st ++ [pv]).

(** Modelled from the spec: the typed coercion helpers of the evaluator
    ([getNumber], [evaluateNumber] and so on), which "produce a type error
    on mismatch". *)
Definition getNumber (v : value) : M float64 :=
  match v with
  | valueNumber x => ret x
  | _ => fail (typeErrorSpecific v "number")
  end.
Definition getString (v : value) : M string :=
  match v with
  | valueString s => ret s
  | _ => fail (typeErrorSpecific v "string")
  end.
Definition getBoolean (v : value) : M bool :=
  match v with
  | valueBoolean b => ret b
  | _ => fail (typeErrorSpecific v "boolean")
  end.
Definition getArray (v : value) : M (list potentialValue) :=
  match v with
  | valueArray elements => ret elements
  | _ => fail (typeErrorSpecific v "array")
  end.
Definition getFunction (v : value) : M evalCallable :=
  match v with
  | valueFunction ec => ret ec
  | _ => fail (typeErrorSpecific v "function")
  end.
Definition getObject (v : value) : M valueObject :=
  match v with
  | valueOfObject o => ret o
  | _ => fail (typeErrorSpecific v "object")
  end.

Definition evaluateNumber (pv : potentialValue) : M float64 :=
  let* v := evaluate pv in getNumber v.
Definition evaluateString (pv : potentialValue) : M string :=
  let* v := evaluate pv in getString v.
Definition evaluateBoolean (pv : potentialValue) : M bool :=
  let* v := evaluate pv in getBoolean v.
Definition evaluateArray (pv : potentialValue) : M (list potentialValue) :=
  let* v := evaluate pv in getArray v.
Definition evaluateFunction (pv : potentialValue) : M evalCallable :=
  let* v := evaluate pv in getFunction v.
Definition evaluateObject (pv : potentialValue) : M valueObject :=
  let* v := evaluate pv in getObject v.

(** [fun.call(args)] builds the thunk of the call and does not run it. *)
Definition call (f : evalCallable) (args : list potentialValue)
    : potentialValue :=
  callThunk f args.

(** ** builtins.go *)

Definition builtinToString (xp : potentialValue) : M value :=
  let* x := evaluate xp in
  match x with
  | valueString _ => ret x
  | _ =>
      match manifestJSON x with
      | Ok buf => ret (makeValueString buf)
      | Err err => fail err
      | Panic msg => panic msg
      end
  end.

Definition builtinPlus (xp yp : potentialValue) : M value :=
  let* x := evaluate xp in
  let* y := evaluate yp in
  match y with
  | valueString r =>
      let* l := builtinToString xp in
      match l with
      | valueString l => ret (concatStrings l r)
      | _ => panic "interface conversion"
      end
  | _ =>
      match x with
      | valueNumber l =>
          let* r := getNumber y in
          ret (makeValueNumber (F64.add l r))
      | valueString l =>
          let* r := builtinToString yp in
          match r with
          | valueString r => ret (concatStrings l r)
          | _ => panic "interface conversion"
          end
      | valueOfObject l =>
          let* r := getObject y in
          ret (makeValueExtendedObject l r)
      | valueArray l =>
          let* r := getArray y in
          ret (concatArrays l r)
      | _ => fail (typeErrorGeneral x)
      end
  end.

Definition makeDoubleCheck (x : float64) : M value :=
  if F64.IsNaN x then fail (Error_ "Not a number")
  else if F64.IsInf x then fail (Error_ "Overflow")
  else ret (makeValueNumber x).

Definition builtinMinus (xp yp : potentialValue) : M value :=
  let* x := evaluateNumber xp in
  let* y := evaluateNumber yp in
  ret (makeValueNumber (F64.sub x y)).

Definition builtinMult (xp yp : potentialValue) : M value :=
  let* x := evaluateNumber xp in
  let* y := evaluateNumber yp in
  ret (makeValueNumber (F64.mul x y)).

Definition builtinDiv (xp yp : potentialValue) : M value :=
  let* x := evaluateNumber xp in
  let* y := evaluateNumber yp in
  if F64.eqb y F64.zero then fail (Error_ "Division by zero.")
  else makeDoubleCheck (F64.div x y).

Definition builtinModulo (xp yp : potentialValue) : M value :=
  let* x := evaluateNumber xp in
  let* y := evaluateNumber yp in
  if F64.eqb y F64.zero then fail (Error_ "Division by zero.")
  else makeDoubleCheck (Mod x y).

Definition builtinLess (xp yp : potentialValue) : M value :=
  let* x := evaluate xp in
  match x with
  | valueNumber l =>
      let* r := evaluateNumber yp in
      ret (makeValueBoolean (F64.ltb l r))
  | valueString l =>
      let* r := evaluateString yp in
      ret (makeValueBoolean (stringLessThan l r))
  | _ => fail (typeErrorGeneral x)
  end.

Definition builtinGreater (xp yp : potentialValue) : M value :=
  builtinLess yp xp.

(** The type assertion of [res] to a boolean value, and its [not()]. *)
Definition not_ (res : value) : M value :=
  match res with
  | valueBoolean b => ret (makeValueBoolean (negb b))
  | _ => panic "interface conversion"
  end.

Definition builtinGreaterEq (xp yp : potentialValue) : M value :=
  let* res := builtinLess xp yp in not_ res.

Definition builtinLessEq (xp yp : potentialValue) : M value :=
  let* res := builtinGreater xp yp in not_ res.

Definition builtinAnd (xp yp : potentialValue) : M value :=
  let* x := evaluateBoolean xp in
  if negb x then ret (valueBoolean x)
  else
    let* y := evaluateBoolean yp in
    ret (valueBoolean y).

Definition builtinOr (xp yp : potentialValue) : M value :=
  let* x := evaluateBoolean xp in
  if x then ret (valueBoolean x)
  else
    let* y := evaluateBoolean yp in
    ret (valueBoolean y).

Definition builtinMakeArray (szp funcp : potentialValue) : M value :=
  let* sz := evaluateNumber szp in
  let* fun_ := evaluateFunction funcp in
  let num := F64.to_int64 sz in
  let elems := map (fun i => call fun_ [readyValue (intToValue i)])
                   (seqZ 0 num) in
  ret (makeValueArray elems).

Definition primitiveEquals (xp yp : potentialValue) : M value :=
  let* x := evaluate xp in
  let* y := evaluate yp in
  if negb (String.eqb (typename x) (typename y))
  then ret (makeValueBoolean false)
  else
    match x with
    | valueBoolean l =>
        let* r := getBoolean y in
        ret (makeValueBoolean (Bool.eqb l r))
    | valueNumber l =>
        let* r := getNumber y in
        ret (makeValueBoolean (F64.eqb l r))
    | valueString l =>
        let* r := getString y in
        ret (makeValueBoolean (stringEqual l r))
    | valueNull => ret (makeValueBoolean true)
    | valueFunction _ => fail (Error_ "Cannot test equality of functions")
    | _ =>
        fail (Error_ ("primitiveEquals operates on primitive types, got "
                      +:+ typename x))
    end.

Definition liftBitwise (f : Z -> Z -> Z) (xp yp : potentialValue) : M value :=
  let* x := evaluateNumber xp in
  let* y := evaluateNumber yp in
  let xInt := F64.to_int64 x in
  let yInt := F64.to_int64 y in
  makeDoubleCheck (F64.of_Z (f xInt yInt)).

(** Go shifts by an unsigned count; a count of 64 or more shifts every
    bit out. *)
Definition builtinShiftL : potentialValue -> potentialValue -> M value :=
  liftBitwise (fun x y =>
    if (64 <=? F64.to_uint y)%Z then 0%Z
    else F64.wrap64 (Z.shiftl x (F64.to_uint y))).
Definition builtinShiftR : potentialValue -> potentialValue -> M value :=
  liftBitwise (fun x y =>
    if (64 <=? F64.to_uint y)%Z then (if (x <? 0)%Z then (-1)%Z else 0%Z)
    else Z.shiftr x (F64.to_uint y)).
Definition builtinBitwiseAnd : potentialValue -> potentialValue -> M value :=
  liftBitwise Z.land.
Definition builtinBitwiseOr : potentialValue -> potentialValue -> M value :=
  liftBitwise Z.lor.
Definition builtinBitwiseXor : potentialValue -> potentialValue -> M value :=
  liftBitwise Z.lxor.

(** The order in which Go ranges over a field table is not specified;
    [rangeFields] is any order. *)
Variable rangeFields :
  valueSimpleObjectFieldMap -> list (string * valueSimpleObjectField).
Hypothesis rangeFields_perm :
  forall m, rangeFields m ≡ₚ map_to_list m.

(** The inner loop of [builtinUglyObjectFlatMerge]: the fields of one
    object, copied into [newFields] until one is already there. *)
Fixpoint flatMergeFields (upValues : bindingFrame)
    (fs : list (string * valueSimpleObjectField))
    (newFields : valueSimpleObjectFieldMap) : M valueSimpleObjectFieldMap :=
  match fs with
  | [] => ret newFields
  | (fieldName, fieldVal) :: rest =>
      match newFields !! fieldName with
      | Some _ => fail (Error_ (duplicateFieldNameErrMsg fieldName))
      | None =>
          flatMergeFields upValues rest
            (<[fieldName :=
                 mkValueSimpleObjectField (hide fieldVal)
                   (bindingsUnboundField (field fieldVal) upValues)]>
               newFields)
      end
  end.

(** The outer loop, over the elements of the array. *)
Fixpoint flatMergeObjects (elements : list potentialValue)
    (newFields : valueSimpleObjectFieldMap) : M valueSimpleObjectFieldMap :=
  match elements with
  | [] => ret newFields
  | elem :: rest =>
      let* obj := evaluateObject elem in
      (* starts getting ugly - we mess with object internals *)
      match obj with
      | valueSimpleObject upValues fields _ =>
          let* newFields :=
            flatMergeFields upValues (rangeFields fields) newFields in
          flatMergeObjects rest newFields
      | valueExtendedObject _ _ => panic "interface conversion"
      end
  end.

Definition builtinUglyObjectFlatMerge (objarrp : potentialValue) : M value :=
  let* objarr := evaluateArray objarrp in
  if (length objarr =? 0)%nat then
    ret (valueOfObject (valueSimpleObject ∅ ∅ []))
  else
    let* newFields := flatMergeObjects objarr ∅ in
    ret (makeValueSimpleObject
           ∅ (* no binding frame *)
           newFields
           [] (* No asserts allowed *)).

Definition todoFunc (x y : potentialValue) : M value :=
  fail (Error_ "not implemented yet").

(* so that we don't get segfaults *)
Definition todo : BinaryBuiltin :=
  {| name := ""; function := todoFunc; parameters := ["x"; "y"] |}.

Definition desugaredBop (op : BinaryOp) : option Identifier :=
  match op with
  | BopPercent => Some "mod"
  | BopManifestEqual => Some "equals"
  | BopManifestUnequal => Some "notEquals" (* Special case *)
  | BopIn => Some "objectHasAll"
  | _ => None
  end.

(** The slice [bopBuiltins], indexed by operator; the slots the literal
    leaves out are nil. *)
Definition bopBuiltins (op : BinaryOp) : option BinaryBuiltin :=
  let xy := ["x"; "y"] in
  match op with
  | BopMult => Some (mkBinaryBuiltin "operator*" builtinMult xy)
  | BopDiv => Some (mkBinaryBuiltin "operator/" builtinDiv xy)
  | BopPercent => Some todo
  | BopPlus => Some (mkBinaryBuiltin "operator+" builtinPlus xy)
  | BopMinus => Some (mkBinaryBuiltin "operator-" builtinMinus xy)
  | BopShiftL => Some (mkBinaryBuiltin "operator<<" builtinShiftL xy)
  | BopShiftR => Some (mkBinaryBuiltin "operator>>" builtinShiftR xy)
  | BopGreater => Some (mkBinaryBuiltin "operator>" builtinGreater xy)
  | BopGreaterEq => Some (mkBinaryBuiltin "operator>=" builtinGreaterEq xy)
  | BopLess => Some (mkBinaryBuiltin "operator<," builtinLess xy)
  | BopLessEq => Some (mkBinaryBuiltin "operator<=" builtinLessEq xy)
  | BopIn => None
  | BopManifestEqual => None
  | BopManifestUnequal => None
  | BopBitwiseAnd => Some (mkBinaryBuiltin "operator&" builtinBitwiseAnd xy)
  | BopBitwiseXor => Some (mkBinaryBuiltin "operator^" builtinBitwiseXor xy)
  | BopBitwiseOr => Some (mkBinaryBuiltin "operator|" builtinBitwiseOr xy)
  | BopAnd => Some (mkBinaryBuiltin "operator&&" builtinAnd xy)
  | BopOr => Some (mkBinaryBuiltin "operator||" builtinOr xy)
  end.

(** "toString semantics": a string is left as it is, any other value is
    manifested as JSON. *)
Definition toString (x : value) : result string :=
  match x with
  | valueString s => Ok s
  | _ => manifestJSON x
  end.

(** The operand types for which [+] is defined. *)
Definition plusDefined (x y : value) : bool :=
  match x, y with
  | valueNumber _, valueNumber _ => true
  | valueString _, _ => true
  | _, valueString _ => true
  | valueArray _, valueArray _ => true
  | valueOfObject _, valueOfObject _ => true
  | _, _ => false
  end.

(** ** float64 to integer *)

Lemma digits2_pos_bound (m : positive) :
  (Zpos m < 2 ^ Zpos (digits2_pos m))%Z.
Proof.
  induction m as [m IH|m IH|]; simpl digits2_pos;
    rewrite ?Pos2Z.inj_succ, ?Z.pow_succ_r by lia; lia.
Qed.

Lemma trunc_small (m : positive) (e : Z) :
  (e < 0)%Z -> (Zpos m < 2 ^ (- e))%Z ->
  F64.trunc (S754_finite false m e) = 0%Z.
Proof.
  intros He Hm. unfold F64.trunc. simpl cond_Zopp.
  rewrite Z.max_r, Z.max_l by lia.
  rewrite Z.pow_0_r, Z.mul_1_r. apply Z.quot_small. lia.
Qed.

Lemma trunc_negative (m : positive) (e : Z) :
  (F64.trunc (S754_finite true m e) <= 0)%Z.
Proof.
  unfold F64.trunc. simpl cond_Zopp.
  assert (0 < 2 ^ Z.max e 0)%Z by (apply Z.pow_pos_nonneg; lia).
  assert (0 < 2 ^ Z.max (- e) 0)%Z by (apply Z.pow_pos_nonneg; lia).
  apply Z.quot_le_upper_bound; [assumption|]. nia.
Qed.

Lemma one_eq : F64.one = S754_finite false 4503599627370496 (-52).
Proof. vm_compute. reflexivity. Qed.

(** A finite positive float64 below 1 has a negative exponent, and with
    exponent -52 a mantissa below 2^52. *)
Lemma ltb_one_finite (m : positive) (e : Z) :
  F64.ltb (S754_finite false m e) F64.one = true ->
  (e < -52)%Z \/ (e = (-52)%Z /\ (Zpos m < 2 ^ 52)%Z).
Proof.
  rewrite one_eq. unfold F64.ltb, SFltb, SFcompare.
  destruct (e ?= -52)%Z eqn:He; try discriminate.
  - apply Z.compare_eq in He.
    destruct (Pos.compare_cont Eq m 4503599627370496) eqn:Hm;
      try discriminate.
    intros _. right. split; [assumption|].
    assert (Hm' : (m < 4503599627370496)%positive) by exact Hm.
    change (2 ^ 52)%Z with 4503599627370496%Z.
    exact (Pos2Z.pos_lt_pos _ _ Hm').
  - intros _. left. apply Z.compare_lt_iff in He. assumption.
Qed.

(** A float64 below 1 converts to an integer that is at most 0. *)
Lemma to_int64_below_one (n : float64) :
  F64.valid n = true -> F64.ltb n F64.one = true ->
  (F64.to_int64 n <= 0)%Z.
Proof.
  intros Hvalid Hlt.
  assert (Hmin : (F64.minInt64 <= 0)%Z) by (vm_compute; discriminate).
  unfold F64.to_int64.
  destruct (_ && _ && _); [|exact Hmin].
  destruct n as [s|s| |s m e]; try (unfold F64.trunc; lia).
  destruct s; [apply trunc_negative|].
  apply ltb_one_finite in Hlt.
  rewrite trunc_small; [lia| |]; [lia|].
  destruct Hlt as [He|[-> Hm]]; [|exact Hm].
  unfold F64.valid, valid_binary, bounded, canonical_mantissa in Hvalid.
  apply andb_prop in Hvalid as [Hcanon _].
  apply Z.eqb_eq in Hcanon.
  unfold fexp, emin, F64.prec, F64.emax in Hcanon.
  pose proof (digits2_pos_bound m) as Hd.
  assert (Hdig : (Zpos (digits2_pos m) <= 53)%Z) by lia.
  assert (2 ^ Zpos (digits2_pos m) <= 2 ^ 53)%Z
    by (apply Z.pow_le_mono_r; lia).
  assert (2 ^ 53 <= 2 ^ (- e))%Z by (apply Z.pow_le_mono_r; lia).
  lia.
Qed.

(** ** The builtins run *)

Ltac run :=
  unfold builtinPlus, builtinMinus, builtinMult, builtinDiv, builtinModulo,
    builtinLessEq, builtinGreaterEq, builtinGreater, builtinLess,
    builtinAnd, builtinOr, builtinMakeArray, primitiveEquals,
    builtinToString,
    evaluateNumber, evaluateString, evaluateBoolean, evaluateArray,
    evaluateFunction, evaluateObject, evaluate, bind; simpl.

Lemma evaluate_run pv st : evaluate pv st = (getValue pv, st ++ [pv]).
Proof. reflexivity. Qed.

Lemma builtinToString_run xp x st :
  getValue xp = Ok x ->
  builtinToString xp st =
    (match toString x with
     | Ok s => Ok (valueString s)
     | Err err => Err err
     | Panic msg => Panic msg
     end, st ++ [xp]).
Proof.
  intros Hx. run. rewrite Hx.
  destruct x; simpl; try reflexivity; destruct (manifestJSON _); reflexivity.
Qed.

(** C1: with both operands forced to [x] and [y], binary [+] is the
    float64 sum of two numbers; if either is a string, the other is turned
    into a string by [toString] and the two are joined, left operand
    first (an error of [toString] is the error of [+]); two arrays are
    concatenated; two objects give the extended object in which the right
    one extends the left one; every other pair of types is a type
    error. *)
Theorem builtinPlus_polymorphic xp yp x y st :
  getValue xp = Ok x -> getValue yp = Ok y ->
  (forall a b, x = valueNumber a -> y = valueNumber b ->
     (builtinPlus xp yp st).1 = Ok (valueNumber (F64.add a b)))
  /\ (forall r, y = valueString r ->
       (builtinPlus xp yp st).1 =
         match toString x with
         | Ok l => Ok (valueString (l +:+ r))
         | Err err => Err err
         | Panic msg => Panic msg
         end)
  /\ (forall l, x = valueString l ->
       (builtinPlus xp yp st).1 =
         match toString y with
         | Ok r => Ok (valueString (l +:+ r))
         | Err err => Err err
         | Panic msg => Panic msg
         end)
  /\ (forall l r, x = valueArray l -> y = valueArray r ->
       (builtinPlus xp yp st).1 = Ok (valueArray (l ++ r)))
  /\ (forall l r, x = valueOfObject l -> y = valueOfObject r ->
       (builtinPlus xp yp st).1 = Ok (valueOfObject (valueExtendedObject l r)))
  /\ (plusDefined x y = false ->
       exists expected actual,
         (builtinPlus xp yp st).1 = Err (TypeError expected actual)).
Proof.
  intros Hx Hy.
  unfold builtinPlus, bind. rewrite !evaluate_run, Hx. cbv iota beta.
  rewrite ?evaluate_run, Hy. cbv iota beta.
  repeat split.
  - intros a b -> ->. reflexivity.
  - intros r ->. rewrite (builtinToString_run xp x _ Hx).
    destruct (toString x); reflexivity.
  - intros l ->.
    destruct y;
      rewrite ?(builtinToString_run xp _ _ Hx),
        ?(builtinToString_run yp _ _ Hy); simpl;
      try destruct (manifestJSON _); reflexivity.
  - intros l r -> ->. reflexivity.
  - intros l r -> ->. reflexivity.
  - intros Hdef. destruct x, y; simpl in Hdef; try discriminate;
      eexists _, _; reflexivity.
Qed.

(** What forcing [pv] to a boolean comes to. *)
Definition forceBoolean (pv : potentialValue) : result value :=
  match getValue pv with
  | Ok (valueBoolean b) => Ok (valueBoolean b)
  | Ok v => Err (typeErrorSpecific v "boolean")
  | Err err => Err err
  | Panic msg => Panic msg
  end.

(** C2, at the inputs where it fails: [1e308 * 10] and [-1e308 - 1e308]
    overflow, and [builtinMult] and [builtinMinus] hand the infinity back
    as a number, with no error; the double-check they leave out would
    have answered [Overflow], as it does for [1e308 / 0.1]. *)
Theorem builtinMult_builtinMinus_unchecked st :
  (builtinMult (readyValue (valueNumber (F64.of_Z (10 ^ 308))))
               (readyValue (valueNumber (F64.of_Z 10))) st).1
    = Ok (valueNumber (S754_infinity false))
  /\ (builtinMinus (readyValue (valueNumber (F64.of_Z (- 10 ^ 308))))
                    (readyValue (valueNumber (F64.of_Z (10 ^ 308)))) st).1
    = Ok (valueNumber (S754_infinity true))
  /\ (makeDoubleCheck (S754_infinity false) st).1
    = Err (RuntimeError "Overflow")
  /\ (builtinDiv (readyValue (valueNumber (F64.of_Z (10 ^ 308))))
                  (readyValue (valueNumber
                     (F64.div (F64.of_Z 1) (F64.of_Z 10)))) st).1
    = Err (RuntimeError "Overflow").
Proof. repeat split; vm_compute; reflexivity. Qed.

(** [/] and [%] on two numbers: a zero divisor is [Division by zero.], and
    otherwise the quotient or remainder goes through the double-check. *)
Lemma builtinDiv_builtinModulo_checked xp yp x y st :
  getValue xp = Ok (valueNumber x) -> getValue yp = Ok (valueNumber y) ->
  (builtinDiv xp yp st).1
    = (if F64.eqb y F64.zero then Err (RuntimeError "Division by zero.")
       else (makeDoubleCheck (F64.div x y) st).1)
  /\ (builtinModulo xp yp st).1
    = (if F64.eqb y F64.zero then Err (RuntimeError "Division by zero.")
       else (makeDoubleCheck (Mod x y) st).1).
Proof.
  intros Hx Hy. split; run; rewrite Hx; simpl; rewrite Hy; simpl;
    destruct (F64.eqb y F64.zero); try reflexivity;
    unfold makeDoubleCheck;
    destruct (F64.IsNaN _); try reflexivity;
    destruct (F64.IsInf _); reflexivity.
Qed.

Lemma makeDoubleCheck_rejects x st :
  (F64.IsNaN x = true ->
     makeDoubleCheck x st = (Err (RuntimeError "Not a number"), st))
  /\ (F64.IsInf x = true ->
       makeDoubleCheck x st = (Err (RuntimeError "Overflow"), st))
  /\ (F64.IsNaN x = false -> F64.IsInf x = false ->
       makeDoubleCheck x st = (Ok (valueNumber x), st)).
Proof.
  unfold makeDoubleCheck. destruct x; simpl; repeat split;
    intros; try discriminate; reflexivity.
Qed.

(** C3: [&&] forces its left operand first and, when that is [false],
    returns [false] having forced nothing else; [||] does the same when
    the left operand is [true]; otherwise each forces the right operand
    next and returns it, which must be a boolean. *)
Theorem builtinAnd_builtinOr_short_circuit xp yp st :
  (getValue xp = Ok (valueBoolean false) ->
     builtinAnd xp yp st = (Ok (valueBoolean false), st ++ [xp]))
  /\ (getValue xp = Ok (valueBoolean true) ->
       builtinAnd xp yp st = (forceBoolean yp, st ++ [xp; yp]))
  /\ (getValue xp = Ok (valueBoolean true) ->
       builtinOr xp yp st = (Ok (valueBoolean true), st ++ [xp]))
  /\ (getValue xp = Ok (valueBoolean false) ->
       builtinOr xp yp st = (forceBoolean yp, st ++ [xp; yp])).
Proof.
  repeat split; intros Hx; run; rewrite Hx; simpl;
    try reflexivity; unfold forceBoolean; rewrite <- app_assoc; simpl;
    destruct (getValue yp) as [[]| |]; reflexivity.
Qed.

(** C4, at an input where it fails: with a left operand whose forcing
    fails with "a" and a right operand whose forcing fails with "b", [>]
    and [<=] force the right operand first and never reach the left one,
    while [<] and [>=] force the left operand first. *)
Theorem builtinGreater_forces_right_first st :
  let xp := thunk "x" (Err (RuntimeError "a")) in
  let yp := thunk "y" (Err (RuntimeError "b")) in
  builtinGreater xp yp st = (Err (RuntimeError "b"), st ++ [yp])
  /\ builtinLessEq xp yp st = (Err (RuntimeError "b"), st ++ [yp])
  /\ builtinLess xp yp st = (Err (RuntimeError "a"), st ++ [xp])
  /\ builtinGreaterEq xp yp st = (Err (RuntimeError "a"), st ++ [xp]).
Proof. repeat split. Qed.

(** The same order with operands that force to numbers: [>] and [<=]
    force [y], then [x]; [<] and [>=] force [x], then [y]. *)
Lemma comparison_forcing_order xp yp a b st :
  getValue xp = Ok (valueNumber a) -> getValue yp = Ok (valueNumber b) ->
  (builtinGreater xp yp st).2 = st ++ [yp; xp]
  /\ (builtinLessEq xp yp st).2 = st ++ [yp; xp]
  /\ (builtinLess xp yp st).2 = st ++ [xp; yp]
  /\ (builtinGreaterEq xp yp st).2 = st ++ [xp; yp].
Proof.
  intros Hx Hy. repeat split; run; rewrite ?Hx, ?Hy; simpl;
    rewrite ?Hx, ?Hy; simpl; rewrite <- app_assoc; reflexivity.
Qed.

(** C8, as the code has it: the [%] slot of the operator table holds the
    placeholder [todo], whose function returns the runtime error
    [not implemented yet] (it does not panic) and forces nothing; and the
    desugared-operator map sends [%] to the stdlib function [mod]. *)
Theorem bopPercent_placeholder x y st :
  bopBuiltins BopPercent = Some todo
  /\ function todo x y st = (Err (RuntimeError "not implemented yet"), st)
  /\ desugaredBop BopPercent = Some "mod".
Proof. repeat split. Qed.

(** C9: with the arguments forced to [x] and [y], [primitiveEquals]
    returns [false], with no error, whenever the typenames differ (so
    also when just one is a function); it fails with
    [Cannot test equality of functions] exactly when both are functions,
    and with the non-primitive error exactly when both are arrays or both
    are objects. *)
Theorem primitiveEquals_typenames xp yp x y st :
  getValue xp = Ok x -> getValue yp = Ok y ->
  (typename x <> typename y ->
     (primitiveEquals xp yp st).1 = Ok (valueBoolean false))
  /\ ((primitiveEquals xp yp st).1
         = Err (RuntimeError "Cannot test equality of functions")
       <-> typename x = "function" /\ typename y = "function")
  /\ ((exists msg, (primitiveEquals xp yp st).1 = Err (RuntimeError msg)
          /\ msg <> "Cannot test equality of functions")
       <-> typename x = typename y
           /\ (typename x = "array" \/ typename x = "object"))
  /\ (typename x = typename y ->
       typename x = "array" \/ typename x = "object" ->
       (primitiveEquals xp yp st).1
         = Err (RuntimeError
                  ("primitiveEquals operates on primitive types, got "
                   +:+ typename x))).
Proof.
  intros Hx Hy. run. rewrite Hx, Hy. simpl.
  destruct x, y; simpl; (split; [|split; [|split]]).
  all: try (intros Hne; first [reflexivity | contradiction]).
  all: try (split;
            [ intros H; first [discriminate H | split; reflexivity]
            | intros [H1 H2]; first [discriminate | reflexivity] ]).
  all: try (split;
            [ intros (msg & H & Hmsg);
              first [ discriminate H
                    | injection H as <-; contradiction
                    | split; [reflexivity | auto] ]
            | intros [H1 [H2|H2]];
              first [ discriminate
                    | eexists; split; [reflexivity | discriminate] ] ]).
  all: try (intros H1 [H2|H2]; first [discriminate | reflexivity]).
Qed.

(** C10, as amended: [makeArray(n, f)] turns [n] into the integer [k] by
    Go's conversion [int(n)]: for a finite [n] whose integer part fits an
    int64, [k] is [n] truncated toward zero; the array has max(k, 0)
    elements, the i-th being the thunk of the call of [f] on [i]; for every
    [n] below 1 (so for every negative one) the array is empty and there is
    no error; and when [n] is not finite or its integer part does not fit
    an int64, [k] is the smallest int64, which is what the conversion gives
    on amd64, so the array is empty as well. *)
Theorem builtinMakeArray_truncates szp funcp n f st :
  getValue szp = Ok (valueNumber n) ->
  getValue funcp = Ok (valueFunction f) ->
  let k := F64.to_int64 n in
  (builtinMakeArray szp funcp st).1
    = Ok (valueArray
            (map (fun i => callThunk f
                     [readyValue (valueNumber (F64.of_Z (Z.of_nat i)))])
                 (seq 0 (Z.to_nat (Z.max k 0)))))
  /\ (F64.is_finite n = true ->
       (F64.minInt64 <= F64.trunc n <= F64.maxInt64)%Z ->
       k = F64.trunc n)
  /\ (F64.valid n = true -> F64.ltb n F64.one = true ->
       (builtinMakeArray szp funcp st).1 = Ok (valueArray []))
  /\ (F64.is_finite n = false
       \/ (F64.trunc n < F64.minInt64)%Z \/ (F64.maxInt64 < F64.trunc n)%Z ->
       k = F64.minInt64
       /\ (builtinMakeArray szp funcp st).1 = Ok (valueArray [])).
Proof.
  intros Hsz Hfun k.
  assert (Hrun : (builtinMakeArray szp funcp st).1
    = Ok (valueArray (map (fun i => call f [readyValue (intToValue i)])
                          (seqZ 0 k)))).
  { run. rewrite Hsz. simpl. rewrite Hfun. reflexivity. }
  split; [|split; [|split]].
  - rewrite Hrun. do 2 f_equal. unfold seqZ.
    rewrite <- list_fmap_compose.
    replace (Z.to_nat (Z.max k 0)) with (Z.to_nat k) by lia.
    apply map_ext. intros i. unfold compose, call, intToValue.
    rewrite Z.add_0_r. reflexivity.
  - intros Hfin [Hlo Hhi]. subst k. unfold F64.to_int64.
    rewrite Hfin. simpl.
    apply Z.leb_le in Hlo, Hhi. rewrite Hlo, Hhi. reflexivity.
  - intros Hvalid Hlt. rewrite Hrun.
    pose proof (to_int64_below_one n Hvalid Hlt) as Hk. fold k in Hk.
    unfold seqZ. replace (Z.to_nat k) with 0%nat by lia. reflexivity.
  - intros Hout.
    assert (Hk : k = F64.minInt64).
    { subst k. unfold F64.to_int64.
      destruct Hout as [Hfin|[Hlo|Hhi]].
      - rewrite Hfin. reflexivity.
      - apply Z.leb_gt in Hlo. rewrite Hlo, andb_false_r. reflexivity.
      - apply Z.leb_gt in Hhi. rewrite Hhi, andb_false_r. reflexivity. }
    split; [exact Hk|]. rewrite Hrun, Hk. reflexivity.
Qed.

(** ** [$objectFlatMerge] *)

Lemma rangeFields_NoDup fields : NoDup (rangeFields fields).*1.
Proof. rewrite rangeFields_perm. apply NoDup_fst_map_to_list. Qed.

Lemma elem_of_rangeFields fields k :
  k ∈ (rangeFields fields).*1 <-> is_Some (fields !! k).
Proof.
  rewrite rangeFields_perm, list_elem_of_fmap. split.
  - intros ([k' v] & -> & Hkv). apply elem_of_map_to_list in Hkv. eauto.
  - intros [v Hv]. exists (k, v). split; [reflexivity|].
    apply elem_of_map_to_list. exact Hv.
Qed.

Lemma rangeFields_list_to_map fields :
  list_to_map (rangeFields fields) = fields.
Proof.
  rewrite <- (list_to_map_to_list fields) at 2.
  apply list_to_map_proper; [apply rangeFields_NoDup|].
  apply rangeFields_perm.
Qed.

(** The inner loop, when no name of [fs] is in [newFields] yet. *)
Lemma flatMergeFields_fresh upValues fs newFields st :
  NoDup fs.*1 ->
  (forall k, k ∈ fs.*1 -> newFields !! k = None) ->
  flatMergeFields upValues fs newFields st
    = (Ok (copiedFields (upValues, list_to_map fs, []) ∪ newFields), st).
Proof.
  unfold copiedFields. simpl.
  revert newFields. induction fs as [|[k v] fs IH]; intros newFields Hnd Hnew.
  - simpl. rewrite fmap_empty, (left_id_L ∅ (∪)). reflexivity.
  - simpl in *. apply NoDup_cons in Hnd as [Hk Hnd].
    rewrite (Hnew k) by (apply elem_of_cons; auto).
    rewrite IH; [|exact Hnd|].
    + rewrite fmap_insert, <- insert_union_l, <- insert_union_r;
        [reflexivity|].
      rewrite lookup_fmap. apply fmap_None.
      apply not_elem_of_list_to_map_1. exact Hk.
    + intros k' Hk'. rewrite lookup_insert_ne by (intros ->; contradiction).
      apply Hnew. apply elem_of_cons. auto.
Qed.

(** The inner loop, when a name of [fs] is in [newFields] already. *)
Lemma flatMergeFields_duplicate upValues fs newFields st k0 :
  NoDup fs.*1 ->
  k0 ∈ fs.*1 -> is_Some (newFields !! k0) ->
  exists k, k ∈ fs.*1 /\ is_Some (newFields !! k)
    /\ flatMergeFields upValues fs newFields st
         = (Err (RuntimeError (duplicateFieldNameErrMsg k)), st).
Proof.
  revert newFields.
  induction fs as [|[k v] fs IH]; intros newFields Hnd Hk0 Hsome.
  - inversion Hk0.
  - simpl in *. apply NoDup_cons in Hnd as [Hk Hnd].
    destruct (newFields !! k) as [f|] eqn:Hlookup.
    + exists k. rewrite Hlookup.
      split; [apply elem_of_cons; auto|]. split; eauto.
    + assert (Hne : k0 <> k) by (intros ->; rewrite Hlookup in Hsome;
        destruct Hsome; discriminate).
      apply elem_of_cons in Hk0 as [?|Hk0]; [contradiction|].
      destruct (IH (<[k:=mkValueSimpleObjectField (hide v)
                        (bindingsUnboundField (field v) upValues)]>
                      newFields) Hnd Hk0) as (k1 & Hk1 & Hsome1 & Hrun).
      { rewrite lookup_insert_ne by congruence. exact Hsome. }
      exists k1. split; [apply elem_of_cons; auto|]. split; [|exact Hrun].
      rewrite lookup_insert_ne in Hsome1; [exact Hsome1|].
      intros ->. contradiction.
Qed.

(** [newFields] can take the fields of all of [objs]: no name comes
    twice, and none is in [newFields] already. *)
Definition mergeable (newFields : valueSimpleObjectFieldMap)
    (objs : list simpleObject) : Prop :=
  NoDup (allFieldNames objs)
  /\ forall n, n ∈ allFieldNames objs -> newFields !! n = None.

Lemma elem_of_allFieldNames objs n :
  n ∈ allFieldNames objs <-> exists o, o ∈ objs /\ is_Some (o.1.2 !! n).
Proof.
  unfold allFieldNames. rewrite list_elem_of_bind.
  setoid_rewrite elem_of_elements. setoid_rewrite elem_of_dom.
  split; intros (o & H1 & H2); exists o; auto.
Qed.

Lemma copiedFields_None o n :
  copiedFields o !! n = None <-> o.1.2 !! n = None.
Proof. unfold copiedFields. rewrite lookup_fmap. apply fmap_None. Qed.

Lemma copiedFields_is_Some o n :
  is_Some (copiedFields o !! n) <-> is_Some (o.1.2 !! n).
Proof. unfold copiedFields. rewrite lookup_fmap. apply fmap_is_Some. Qed.

Lemma mergeable_cons newFields o objs :
  mergeable newFields (o :: objs)
  <-> (forall k, is_Some (o.1.2 !! k) -> newFields !! k = None)
      /\ mergeable (copiedFields o ∪ newFields) objs.
Proof.
  unfold mergeable.
  change (allFieldNames (o :: objs))
    with (elements (dom o.1.2) ++ allFieldNames objs).
  rewrite NoDup_app. setoid_rewrite elem_of_app.
  setoid_rewrite lookup_union_None. setoid_rewrite copiedFields_None.
  setoid_rewrite elem_of_elements. setoid_rewrite elem_of_dom.
  split.
  - intros ((_ & Hdisj & Hnd) & Hnew). split; [auto|]. split; [exact Hnd|].
    intros n Hn. split; [|auto].
    apply eq_None_not_Some. intros Hsome. exact (Hdisj n Hsome Hn).
  - intros (Hnew & Hnd & Hrest). split.
    + split; [apply NoDup_elements|]. split; [|exact Hnd].
      intros n Hsome Hn. destruct (Hrest n Hn) as [Hnone _].
      rewrite Hnone in Hsome. destruct Hsome; discriminate.
    + intros n [Hn|Hn]; [auto | apply Hrest; exact Hn].
Qed.

Lemma evaluateObject_simple elem (o : simpleObject) st :
  getValue elem = Ok (ofSimple o) ->
  evaluateObject elem st
    = (Ok (valueSimpleObject o.1.1 o.1.2 o.2), st ++ [elem]).
Proof. intros Helem. run. rewrite Helem. reflexivity. Qed.

Lemma flatMergeObjects_cons_fresh elem elems (o : simpleObject) newFields st :
  getValue elem = Ok (ofSimple o) ->
  (forall k, is_Some (o.1.2 !! k) -> newFields !! k = None) ->
  flatMergeObjects (elem :: elems) newFields st
    = flatMergeObjects elems (copiedFields o ∪ newFields) (st ++ [elem]).
Proof.
  intros Helem Hfresh. simpl. unfold bind.
  rewrite (evaluateObject_simple elem o st Helem).
  rewrite flatMergeFields_fresh.
  - rewrite rangeFields_list_to_map. reflexivity.
  - apply rangeFields_NoDup.
  - intros k Hk. apply Hfresh, elem_of_rangeFields. exact Hk.
Qed.

(** The outer loop, when the field tables can all be merged. *)
Lemma flatMergeObjects_merge elems objs newFields st :
  Forall2 (fun pv o => getValue pv = Ok (ofSimple o)) elems objs ->
  mergeable newFields objs ->
  exists m,
    flatMergeObjects elems newFields st = (Ok m, st ++ elems)
    /\ forall n f, m !! n = Some f <->
          newFields !! n = Some f
          \/ exists o, o ∈ objs /\ copiedFields o !! n = Some f.
Proof.
  intros Hall. revert newFields st.
  induction Hall as [|elem o elems objs Helem Hall IH];
    intros newFields st Hmerge.
  - exists newFields. simpl. rewrite app_nil_r. split; [reflexivity|].
    intros n f. split; [auto|]. intros [?|(o & Ho & _)]; [assumption|].
    inversion Ho.
  - apply mergeable_cons in Hmerge as [Hfresh Hmerge].
    rewrite (flatMergeObjects_cons_fresh _ _ o) by assumption.
    destruct (IH _ (st ++ [elem]) Hmerge) as (m & Hrun & Hm).
    exists m. rewrite Hrun, <- app_assoc. split; [reflexivity|].
    intros n f. rewrite Hm, lookup_union_Some_raw.
    setoid_rewrite elem_of_cons. split.
    + intros [[Hcopy|[_ Hnew]]|(o' & Ho' & Hcopy)]; eauto.
    + intros [Hnew|(o' & [->|Ho'] & Hcopy)]; eauto.
      left. right. split; [|exact Hnew].
      apply copiedFields_None, eq_None_not_Some. intros Hsome.
      rewrite (Hfresh n Hsome) in Hnew. discriminate.
Qed.

Lemma definedTwice_cons_head o objs o' n :
  o' ∈ objs -> is_Some (o.1.2 !! n) -> is_Some (o'.1.2 !! n) ->
  definedTwice (o :: objs) n.
Proof.
  intros Ho' Hn Hn'. apply list_elem_of_lookup in Ho' as [j Hj].
  exists 0%nat, (S j), o, o'. repeat split; try assumption. lia.
Qed.

Lemma definedTwice_cons_tail o objs n :
  definedTwice objs n -> definedTwice (o :: objs) n.
Proof.
  intros (i & j & oi & oj & Hij & Hi & Hj & Hni & Hnj).
  exists (S i), (S j), oi, oj. repeat split; try assumption. lia.
Qed.

(** The outer loop, when the field tables cannot all be merged. *)
Lemma flatMergeObjects_duplicate elems objs newFields st :
  Forall2 (fun pv o => getValue pv = Ok (ofSimple o)) elems objs ->
  ~ mergeable newFields objs ->
  exists n,
    ((is_Some (newFields !! n)
      /\ exists o, o ∈ objs /\ is_Some (o.1.2 !! n))
     \/ definedTwice objs n)
    /\ (flatMergeObjects elems newFields st).1
        = Err (RuntimeError (duplicateFieldNameErrMsg n)).
Proof.
  intros Hall. revert newFields st.
  induction Hall as [|elem o elems objs Helem Hall IH];
    intros newFields st Hmerge.
  - exfalso. apply Hmerge. split; [constructor|]. intros n Hn. inversion Hn.
  - destruct (decide (Exists (fun k => is_Some (newFields !! k))
                             (rangeFields o.1.2).*1)) as [Hex|Hex].
    + apply Exists_exists in Hex as (k0 & Hk0 & Hsome0).
      destruct (flatMergeFields_duplicate o.1.1 _ newFields (st ++ [elem])
                  k0 (rangeFields_NoDup _) Hk0 Hsome0)
        as (k & Hk & Hsome & Hrun).
      exists k. split.
      * left. split; [exact Hsome|]. exists o. split; [left|].
        apply elem_of_rangeFields. exact Hk.
      * simpl. unfold bind.
        rewrite (evaluateObject_simple elem o st Helem), Hrun. reflexivity.
    + assert (Hfresh : forall k, is_Some (o.1.2 !! k) ->
                                 newFields !! k = None).
      { intros k Hk. apply eq_None_not_Some. intros Hsome. apply Hex.
        apply Exists_exists. exists k. split; [|exact Hsome].
        apply elem_of_rangeFields. exact Hk. }
      rewrite (flatMergeObjects_cons_fresh _ _ o) by assumption.
      destruct (IH (copiedFields o ∪ newFields) (st ++ [elem]))
        as (n & Hn & Hrun).
      { intros Hrest. apply Hmerge, mergeable_cons. auto. }
      exists n. split; [|exact Hrun].
      destruct Hn as [[Hsome (o' & Ho' & Hn')]|Htwice].
      * apply lookup_union_is_Some in Hsome as [Hcopy|Hnew].
        -- right. apply (definedTwice_cons_head o objs o'); try assumption.
           apply copiedFields_is_Some. exact Hcopy.
        -- left. split; [exact Hnew|]. exists o'. split; [right|]; assumption.
      * right. apply definedTwice_cons_tail. exact Htwice.
Qed.

Lemma not_definedTwice_NoDup objs :
  (forall n, ~ definedTwice objs n) -> NoDup (allFieldNames objs).
Proof.
  induction objs as [|o objs IH]; intros Hnot; [constructor|].
  change (allFieldNames (o :: objs))
    with (elements (dom o.1.2) ++ allFieldNames objs).
  apply NoDup_app. split; [apply NoDup_elements|]. split.
  - intros n Hn Hn'. apply elem_of_elements, elem_of_dom in Hn.
    apply elem_of_allFieldNames in Hn' as (o' & Ho' & Hsome).
    apply (Hnot n). apply (definedTwice_cons_head o objs o'); assumption.
  - apply IH. intros n Htwice. apply (Hnot n).
    apply definedTwice_cons_tail. exact Htwice.
Qed.

Lemma definedTwice_not_NoDup objs n :
  definedTwice objs n -> ~ NoDup (allFieldNames objs).
Proof.
  intros (i & j & oi & oj & Hij & Hi & Hj & Hni & Hnj). revert i j Hij Hi Hj.
  induction objs as [|o objs IH]; intros i j Hij Hi Hj Hnd;
    [discriminate|].
  change (allFieldNames (o :: objs))
    with (elements (dom o.1.2) ++ allFieldNames objs) in Hnd.
  apply NoDup_app in Hnd as (_ & Hdisj & Hnd).
  destruct j as [|j]; [lia|]. destruct i as [|i]; simpl in Hi, Hj.
  - injection Hi as ->. apply (Hdisj n).
    + apply elem_of_elements, elem_of_dom. exact Hni.
    + apply elem_of_allFieldNames. exists oj. split; [|exact Hnj].
      apply list_elem_of_lookup. eauto.
  - apply (IH i j); [lia|assumption..].
Qed.

(** C6: with the argument forced to an array whose elements force to the
    simple objects [objs], when no field name is a field of two of them
    [$objectFlatMerge] returns a simple object with no binding frame and
    no assertions, in whose field table a name has a field exactly when
    it has it in the copied field table of one of [objs] (the union of
    the tables, each field with its hide flag and its unbound-field
    wrapped with the upValues of its object); when a name is a field of
    two of them, it fails with the duplicate-field-name error of such a
    name; and for an empty array the object has no fields. *)
Theorem builtinUglyObjectFlatMerge_union objarrp elems objs st :
  getValue objarrp = Ok (valueArray elems) ->
  Forall2 (fun pv o => getValue pv = Ok (ofSimple o)) elems objs ->
  ((forall n, ~ definedTwice objs n) ->
     exists newFields,
       (builtinUglyObjectFlatMerge objarrp st).1
         = Ok (valueOfObject (valueSimpleObject ∅ newFields []))
       /\ forall n f, newFields !! n = Some f <->
             exists o, o ∈ objs /\ copiedFields o !! n = Some f)
  /\ ((exists n, definedTwice objs n) ->
       exists n, definedTwice objs n
         /\ (builtinUglyObjectFlatMerge objarrp st).1
             = Err (RuntimeError (duplicateFieldNameErrMsg n)))
  /\ (elems = [] ->
       (builtinUglyObjectFlatMerge objarrp st).1
         = Ok (valueOfObject (valueSimpleObject ∅ ∅ []))).
Proof.
  intros Harr Hall.
  assert (Hrun : builtinUglyObjectFlatMerge objarrp st
    = if (length elems =? 0)%nat
      then (Ok (valueOfObject (valueSimpleObject ∅ ∅ [])), st ++ [objarrp])
      else match flatMergeObjects elems ∅ (st ++ [objarrp]) with
           | (Ok newFields, st') =>
               (Ok (makeValueSimpleObject ∅ newFields []), st')
           | (Err err, st') => (Err err, st')
           | (Panic msg, st') => (Panic msg, st')
           end).
  { unfold builtinUglyObjectFlatMerge. run. rewrite Harr. simpl.
    destruct (length elems =? 0)%nat; reflexivity. }
  rewrite Hrun. clear Hrun. split; [|split].
  - intros Hnot. destruct elems as [|elem elems].
    + apply Forall2_nil_inv_l in Hall as ->. exists ∅.
      split; [reflexivity|]. intros n f. rewrite lookup_empty.
      split; [discriminate|]. intros (o & Ho & _). inversion Ho.
    + destruct (flatMergeObjects_merge (elem :: elems) objs ∅
                  (st ++ [objarrp]) Hall) as (m & Hm & Hlookup).
      { split; [apply not_definedTwice_NoDup; exact Hnot|].
        intros n _. apply lookup_empty. }
      exists m. simpl length. simpl Nat.eqb. cbv iota. rewrite Hm.
      split; [reflexivity|]. intros n f. rewrite Hlookup, lookup_empty.
      split; [intros [?|?]; [discriminate|assumption] | auto].
  - intros [n0 Htwice].
    destruct (flatMergeObjects_duplicate elems objs ∅ (st ++ [objarrp]) Hall)
      as (n & Hn & Hfail).
    { intros [Hnd _]. exact (definedTwice_not_NoDup objs n0 Htwice Hnd). }
    exists n. split.
    + destruct Hn as [[Hsome _]|Hn]; [|exact Hn].
      rewrite lookup_empty in Hsome. destruct Hsome; discriminate.
    + destruct elems as [|elem elems].
      * apply Forall2_nil_inv_l in Hall as ->.
        destruct Htwice as (i & j & oi & oj & _ & Hi & _). discriminate.
      * simpl length. simpl Nat.eqb. cbv iota.
        destruct (flatMergeObjects (elem :: elems) ∅ (st ++ [objarrp]))
          as [[m|err|msg] st']; simpl in Hfail; try discriminate.
        simpl. congruence.
  - intros ->. reflexivity.
Qed.

(** ** The other builtins of builtins.go *)

(** What they use and these files do not define: [math.Pow], the table of
    external variables of the interpreter, and the parameter list of a
    function value. *)
Variable Pow : float64 -> float64 -> float64.
Variable extVars : gmap Identifier potentialValue.
Variable functionParameters : evalCallable -> Identifiers.

Definition builtinLength (xp : potentialValue) : M value :=
  let* x := evaluate xp in
  match x with
  | valueOfObject o =>
      ret (makeValueNumber
             (F64.of_Z (Z.of_nat (length (objectFields o withoutHidden)))))
  | valueArray elements =>
      ret (makeValueNumber (F64.of_Z (Z.of_nat (length elements))))
  | valueString s =>
      ret (makeValueNumber (F64.of_Z (Z.of_nat (valueString_length s))))
  | valueFunction ec =>
      ret (makeValueNumber
             (F64.of_Z (Z.of_nat (length (functionParameters ec)))))
  | _ => fail (typeErrorGeneral x)
  end.

(** The loop of [builtinFlatMap] over the elements still to visit;
    [elems] is what has been gathered. *)
Fixpoint flatMapLoop (fun_ : evalCallable) (elements : list potentialValue)
    (elems : list potentialValue) : M (list potentialValue) :=
  match elements with
  | [] => ret elems
  | elem :: rest =>
      let* returned := evaluateArray (call fun_ [elem]) in
      flatMapLoop fun_ rest (elems ++ returned)
  end.

Definition builtinFlatMap (funcp arrp : potentialValue) : M value :=
  let* arr := evaluateArray arrp in
  let* fun_ := evaluateFunction funcp in
  let* elems := flatMapLoop fun_ arr [] in
  ret (makeValueArray elems).

(** The loop of [builtinFilter]. *)
Fixpoint filterLoop (fun_ : evalCallable) (elements : list potentialValue)
    (elems : list potentialValue) : M (list potentialValue) :=
  match elements with
  | [] => ret elems
  | elem :: rest =>
      let* included := evaluateBoolean (call fun_ [elem]) in
      filterLoop fun_ rest (if included then elems ++ [elem] else elems)
  end.

Definition builtinFilter (funcp arrp : potentialValue) : M value :=
  let* arr := evaluateArray arrp in
  let* fun_ := evaluateFunction funcp in
  let* elems := filterLoop fun_ arr [] in
  ret (makeValueArray elems).

Definition builtinNegation (xp : potentialValue) : M value :=
  let* x := evaluateBoolean xp in
  ret (makeValueBoolean (negb x)).

(** [^i] on an int64 is the bitwise complement. *)
Definition builtinBitNeg (xp : potentialValue) : M value :=
  let* x := evaluateNumber xp in
  let i := F64.to_int64 x in
  ret (makeValueNumber (F64.of_Z (Z.lnot i))).

Definition builtinIdentity (xp : potentialValue) : M value :=
  let* x := evaluate xp in
  ret x.

Definition builtinUnaryMinus (xp : potentialValue) : M value :=
  let* x := evaluateNumber xp in
  ret (makeValueNumber (F64.neg x)).

Definition liftNumeric (f : float64 -> float64) (xp : potentialValue)
    : M value :=
  let* x := evaluateNumber xp in
  makeDoubleCheck (f x).

(** [math.Sqrt] is the correctly rounded square root of IEEE-754. *)
Definition builtinSqrt : potentialValue -> M value :=
  liftNumeric (SFsqrt F64.prec F64.emax).

Definition builtinPow (basep expp : potentialValue) : M value :=
  let* base := evaluateNumber basep in
  let* exp := evaluateNumber expp in
  makeDoubleCheck (Pow base exp).

Definition builtinExtVar (namep : potentialValue) : M value :=
  let* name_ := evaluateString namep in
  let index := name_ in
  match extVars !! index with
  | Some pv => evaluate pv
  | None => fail (Error_ ("Undefined external variable: " +:+ index))
  end.

Definition unaryBuiltin : Type := potentialValue -> M value.

Record UnaryBuiltin : Type := mkUnaryBuiltin {
  unaryName : Identifier;
  unaryFunction : unaryBuiltin;
  unaryParameters : Identifiers
}.

Definition uopBuiltins (op : UnaryOp) : UnaryBuiltin :=
  match op with
  | UopNot => mkUnaryBuiltin "operator!" builtinNegation ["x"]
  | UopBitwiseNot => mkUnaryBuiltin "operator~" builtinBitNeg ["x"]
  | UopPlus => mkUnaryBuiltin "operator+ (unary)" builtinIdentity ["x"]
  | UopMinus => mkUnaryBuiltin "operator- (unary)" builtinUnaryMinus ["x"]
  end.

(** ** The other builtins run *)

Ltac run' :=
  unfold builtinLength, builtinFlatMap, builtinFilter, builtinNegation,
    builtinBitNeg, builtinIdentity, builtinUnaryMinus,
    builtinSqrt, liftNumeric, liftBitwise, builtinPow, builtinExtVar; run.

Lemma bind_Ok {A B} (m : M A) (k : A -> M B) st v :
  (bind m k st).1 = Ok v ->
  exists a st', m st = (Ok a, st') /\ (k a st').1 = Ok v.
Proof.
  unfold bind. destruct (m st) as [[a|err|msg] st']; simpl;
    try discriminate. eauto.
Qed.

Lemma makeDoubleCheck_Ok x st v :
  (makeDoubleCheck x st).1 = Ok v ->
  v = valueNumber x /\ F64.is_finite x = true.
Proof.
  unfold makeDoubleCheck. destruct x; simpl; try discriminate;
    intros [= <-]; split; reflexivity.
Qed.

(** X1: whatever [/], [modulo], [pow], a lifted math function or a lifted
    bitwise operator returns without an error is a finite number: never a
    NaN, never an infinity. *)
Theorem checked_builtins_finite xp yp f g st v :
  (builtinDiv xp yp st).1 = Ok v
  \/ (builtinModulo xp yp st).1 = Ok v
  \/ (builtinPow xp yp st).1 = Ok v
  \/ (liftNumeric f xp st).1 = Ok v
  \/ (liftBitwise g xp yp st).1 = Ok v ->
  exists x, v = valueNumber x /\ F64.is_finite x = true.
Proof.
  intros [H|[H|[H|[H|H]]]].
  - apply bind_Ok in H as (x & st1 & _ & H).
    apply bind_Ok in H as (y & st2 & _ & H).
    destruct (F64.eqb y F64.zero); [discriminate|].
    apply makeDoubleCheck_Ok in H. eauto.
  - apply bind_Ok in H as (x & st1 & _ & H).
    apply bind_Ok in H as (y & st2 & _ & H).
    destruct (F64.eqb y F64.zero); [discriminate|].
    apply makeDoubleCheck_Ok in H. eauto.
  - apply bind_Ok in H as (x & st1 & _ & H).
    apply bind_Ok in H as (y & st2 & _ & H).
    apply makeDoubleCheck_Ok in H. eauto.
  - apply bind_Ok in H as (x & st1 & _ & H).
    apply makeDoubleCheck_Ok in H. eauto.
  - apply bind_Ok in H as (x & st1 & _ & H).
    apply bind_Ok in H as (y & st2 & _ & H).
    apply makeDoubleCheck_Ok in H. eauto.
Qed.

(** X2: the square root of a negative number fails with [Not a number]
    (the square root of a negative zero does not: it is that zero). *)
Theorem builtinSqrt_negative xp m e st :
  getValue xp = Ok (valueNumber (S754_finite true m e)) ->
  (builtinSqrt xp st).1 = Err (RuntimeError "Not a number").
Proof. intros Hx. run'. rewrite Hx. reflexivity. Qed.

(** ** Comparisons of numbers *)

Lemma SFcompare_antisym (x y : float64) :
  SFcompare y x = option_map CompOpp (SFcompare x y).
Proof.
  destruct x as [sx|sx| |sx mx ex], y as [sy|sy| |sy my ey]; simpl;
    try reflexivity;
    try (destruct sx; reflexivity); try (destruct sy; reflexivity);
    try (destruct sx, sy; reflexivity).
  destruct sx, sy; try reflexivity;
    rewrite (Z.compare_antisym ex ey);
    destruct (ex ?= ey)%Z; simpl; try reflexivity;
    change (Pos.compare_cont Eq my mx) with (my ?= mx)%positive;
    change (Pos.compare_cont Eq mx my) with (mx ?= my)%positive;
    rewrite (Pos.compare_antisym mx my);
    destruct (mx ?= my)%positive; reflexivity.
Qed.

Lemma SFcompare_None (x y : float64) :
  SFcompare x y = None <-> F64.IsNaN x = true \/ F64.IsNaN y = true.
Proof.
  destruct x as [sx|sx| |sx mx ex], y as [sy|sy| |sy my ey]; simpl;
    split; intros H; try discriminate; try reflexivity; auto;
    try (destruct H; discriminate).
Qed.

Lemma F64_eqb_sym (x y : float64) : F64.eqb x y = F64.eqb y x.
Proof.
  unfold F64.eqb, SFeqb. rewrite (SFcompare_antisym y x).
  destruct (SFcompare y x) as [[]|]; reflexivity.
Qed.

(** X3: on two numbers neither of which is a NaN the four comparisons are
    coherent: [x <= y] holds exactly when [x < y] or [x == y], [x >= y]
    exactly when [y < x] or [x == y], and [x > y] exactly when [y < x].
    With a NaN operand [<] and [>] are false while [<=] and [>=], being
    computed as negations, are true. *)
Theorem comparisons_coherent xp yp x y st :
  getValue xp = Ok (valueNumber x) -> getValue yp = Ok (valueNumber y) ->
  (builtinLess xp yp st).1 = Ok (valueBoolean (F64.ltb x y))
  /\ (builtinGreater xp yp st).1 = Ok (valueBoolean (F64.ltb y x))
  /\ (F64.IsNaN x = false -> F64.IsNaN y = false ->
      (builtinLessEq xp yp st).1
        = Ok (valueBoolean (F64.ltb x y || F64.eqb x y))
      /\ (builtinGreaterEq xp yp st).1
        = Ok (valueBoolean (F64.ltb y x || F64.eqb x y)))
  /\ (F64.IsNaN x = true \/ F64.IsNaN y = true ->
      (builtinLess xp yp st).1 = Ok (valueBoolean false)
      /\ (builtinGreater xp yp st).1 = Ok (valueBoolean false)
      /\ (builtinLessEq xp yp st).1 = Ok (valueBoolean true)
      /\ (builtinGreaterEq xp yp st).1 = Ok (valueBoolean true)).
Proof.
  intros Hx Hy.
  assert (Hless : (builtinLess xp yp st).1 = Ok (valueBoolean (F64.ltb x y))).
  { run. rewrite Hx. simpl. rewrite Hy. reflexivity. }
  assert (Hgreater :
    (builtinGreater xp yp st).1 = Ok (valueBoolean (F64.ltb y x))).
  { run. rewrite Hy. simpl. rewrite Hx. reflexivity. }
  assert (Hle : (builtinLessEq xp yp st).1
                = Ok (valueBoolean (negb (F64.ltb y x)))).
  { run. rewrite Hy. simpl. rewrite Hx. reflexivity. }
  assert (Hge : (builtinGreaterEq xp yp st).1
                = Ok (valueBoolean (negb (F64.ltb x y)))).
  { run. rewrite Hx. simpl. rewrite Hy. reflexivity. }
  split; [exact Hless|]. split; [exact Hgreater|].
  rewrite Hless, Hgreater, Hle, Hge. clear Hless Hgreater Hle Hge.
  unfold F64.ltb, F64.eqb, SFltb, SFeqb. rewrite (SFcompare_antisym x y).
  split.
  - intros Hnx Hny.
    destruct (SFcompare x y) as [[]|] eqn:Hcmp; simpl; auto.
    apply SFcompare_None in Hcmp as [Hnan|Hnan]; congruence.
  - intros Hnan. apply SFcompare_None in Hnan. rewrite Hnan. simpl. auto.
Qed.

(** X4: [primitiveEquals] is symmetric: with both arguments forced to
    values, swapping them gives the same boolean or the same error. *)
Theorem primitiveEquals_symmetric xp yp x y st st' :
  getValue xp = Ok x -> getValue yp = Ok y ->
  (primitiveEquals xp yp st).1 = (primitiveEquals yp xp st').1.
Proof.
  intros Hx Hy. run. rewrite Hx, Hy. simpl.
  destruct x, y; simpl; try reflexivity.
  - destruct b, b0; reflexivity.
  - rewrite (F64_eqb_sym x x0). reflexivity.
  - unfold stringEqual. rewrite (String.eqb_sym s s0). reflexivity.
Qed.

(** X5: [toString] is idempotent: applied to a value it has returned, it
    returns that value again. *)
Theorem builtinToString_idempotent xp st v st' :
  (builtinToString xp st).1 = Ok v ->
  (builtinToString (readyValue v) st').1 = Ok v.
Proof.
  intros H. apply bind_Ok in H as (x & st1 & _ & H).
  assert (Hv : exists s, v = valueString s).
  { destruct x; simpl in H; try (destruct (manifestJSON _);
      simpl in H; try discriminate; injection H as <-; eauto).
    injection H as <-. eauto. }
  destruct Hv as [s ->]. reflexivity.
Qed.

(** X6: [!] and unary [-] undo themselves: [!!b] is [b] for a boolean and
    [-(-x)] is [x] for every number, and unary [-] on a number never
    fails. *)
Theorem negation_involutive xp st :
  (forall b, getValue xp = Ok (valueBoolean b) ->
     exists v, (builtinNegation xp st).1 = Ok v
       /\ (builtinNegation (readyValue v) st).1 = Ok (valueBoolean b))
  /\ (forall x, getValue xp = Ok (valueNumber x) ->
      exists v, (builtinUnaryMinus xp st).1 = Ok v
        /\ (builtinUnaryMinus (readyValue v) st).1 = Ok (valueNumber x)).
Proof.
  split.
  - intros b Hx. exists (valueBoolean (negb b)). run'. rewrite Hx. simpl.
    rewrite negb_involutive. auto.
  - intros x Hx. exists (valueNumber (F64.neg x)). run'. rewrite Hx. simpl.
    split; [reflexivity|]. destruct x as [s|s| |s m e]; simpl;
      rewrite ?negb_involutive; reflexivity.
Qed.

Lemma string_append_assoc (a b c : string) :
  (a +:+ b) +:+ c = a +:+ (b +:+ c).
Proof.
  induction a as [|x a IH]; [reflexivity|].
  change ((String x a +:+ b) +:+ c) with (String x ((a +:+ b) +:+ c)).
  change (String x a +:+ (b +:+ c)) with (String x (a +:+ (b +:+ c))).
  rewrite IH. reflexivity.
Qed.

Lemma isContinuation_continuationByte (x : N) :
  isContinuation (continuationByte x) = true.
Proof.
  unfold isContinuation, continuationByte.
  assert (Hm : (x mod 64 < 64)%N) by (apply N.mod_lt; discriminate).
  generalize dependent (x mod 64)%N. intros m Hm.
  rewrite N_ascii_embedding by lia.
  apply andb_true_intro. split; [apply N.leb_le|apply N.ltb_lt]; lia.
Qed.

Lemma isContinuation_lead (n : N) :
  (n < 128 \/ 192 <= n < 256)%N -> isContinuation (ascii_of_N n) = false.
Proof.
  intros Hn. unfold isContinuation. rewrite N_ascii_embedding by lia.
  destruct Hn as [Hn|Hn].
  - apply andb_false_intro1. apply N.leb_gt. exact Hn.
  - apply andb_false_intro2. apply N.ltb_ge. apply Hn.
Qed.

Lemma valueString_length_append (a b : string) :
  valueString_length (a +:+ b)
  = (valueString_length a + valueString_length b)%nat.
Proof.
  induction a as [|x a IH]; [reflexivity|].
  change (String x a +:+ b) with (String x (a +:+ b)).
  simpl. rewrite IH. lia.
Qed.

(** The bytes of a code point count for one. *)
Lemma valueString_length_encodeRune (r : N) :
  valueString_length (encodeRune r) = 1%nat.
Proof.
  unfold encodeRune.
  destruct (r <? 128)%N eqn:H1.
  { apply N.ltb_lt in H1. simpl. rewrite isContinuation_lead by lia.
    reflexivity. }
  apply N.ltb_ge in H1.
  destruct (r <? 2048)%N eqn:H2.
  { apply N.ltb_lt in H2. simpl.
    rewrite isContinuation_continuationByte.
    assert (Hq : (r / 64 < 32)%N)
      by (apply N.Div0.div_lt_upper_bound; lia).
    generalize dependent (r / 64)%N. intros q Hq.
    rewrite isContinuation_lead by lia. reflexivity. }
  apply N.ltb_ge in H2.
  destruct (_ || _)%N eqn:H3; [reflexivity|].
  apply orb_false_elim in H3 as [H3 _]. apply N.ltb_ge in H3.
  destruct (r <? 65536)%N eqn:H4.
  { apply N.ltb_lt in H4. simpl.
    rewrite !isContinuation_continuationByte.
    assert (Hq : (r / 4096 < 16)%N)
      by (apply N.Div0.div_lt_upper_bound; lia).
    generalize dependent (r / 4096)%N. intros q Hq.
    rewrite isContinuation_lead by lia. reflexivity. }
  simpl. rewrite !isContinuation_continuationByte.
  assert (Hq : (r / 262144 < 5)%N)
    by (apply N.Div0.div_lt_upper_bound; lia).
  generalize dependent (r / 262144)%N. intros q Hq.
  rewrite isContinuation_lead by lia. reflexivity.
Qed.

(** The length of the string of a sequence of code points is the number of
    the code points. *)
Lemma valueString_length_runesToString (runes : list N) :
  valueString_length (runesToString runes) = length runes.
Proof.
  induction runes as [|r runes IH]; [reflexivity|].
  simpl. rewrite valueString_length_append, valueString_length_encodeRune.
  rewrite IH. reflexivity.
Qed.

(** X7: [+] is associative on strings and on arrays: with operands forced
    to three strings, or to three arrays, [(x + y) + z] and [x + (y + z)]
    are the same value. *)
Theorem builtinPlus_associative xp yp zp x y z st xy yz :
  getValue xp = Ok x -> getValue yp = Ok y -> getValue zp = Ok z ->
  (exists a b c, x = valueString a /\ y = valueString b /\ z = valueString c)
  \/ (exists a b c, x = valueArray a /\ y = valueArray b /\ z = valueArray c) ->
  (builtinPlus xp yp st).1 = Ok xy -> (builtinPlus yp zp st).1 = Ok yz ->
  (builtinPlus (readyValue xy) zp st).1 = (builtinPlus xp (readyValue yz) st).1
  /\ exists v, (builtinPlus (readyValue xy) zp st).1 = Ok v.
Proof.
  intros Hx Hy Hz Htypes. run. rewrite Hx, Hy, Hz. simpl. rewrite ?Hx, ?Hy.
  destruct Htypes as [(a & b & c & -> & -> & ->)|(a & b & c & -> & -> & ->)];
    simpl; rewrite ?Hx, ?Hy; simpl;
    intros [= <-] [= <-]; simpl; rewrite ?Hx; simpl;
    unfold concatStrings, concatArrays.
  - rewrite string_append_assoc. eauto.
  - rewrite app_assoc. eauto.
Qed.

(** X8: the length of what [+] makes of two arrays or of two strings is the
    sum of their lengths, the length of a string being the number of its
    code points. *)
Theorem builtinLength_plus xp yp st v :
  (forall a b, getValue xp = Ok (valueArray a) ->
     getValue yp = Ok (valueArray b) ->
     (builtinPlus xp yp st).1 = Ok v ->
     (builtinLength (readyValue v) st).1
       = Ok (valueNumber (F64.of_Z (Z.of_nat (length a + length b)))))
  /\ (forall a b, getValue xp = Ok (valueString a) ->
      getValue yp = Ok (valueString b) ->
      (builtinPlus xp yp st).1 = Ok v ->
      (builtinLength (readyValue v) st).1
        = Ok (valueNumber
                (F64.of_Z (Z.of_nat (valueString_length a
                                     + valueString_length b))))).
Proof.
  split; intros a b Hx Hy; run'; rewrite Hx, Hy; simpl; rewrite ?Hx; simpl;
    intros [= <-]; simpl.
  - rewrite length_app. reflexivity.
  - rewrite valueString_length_append. reflexivity.
Qed.

(** X9: [makeArray] is lazy: with a number and a function for arguments
    it forces the size, then the function, and nothing else (the function
    is not called), and forcing the element at index [i] of its result is
    the call of the function on [i].  A size that is not a number is a type
    error before the function is forced, and a second argument that is not
    a function is a type error whatever the size. *)
Theorem builtinMakeArray_lazy szp funcp st :
  (forall n f, getValue szp = Ok (valueNumber n) ->
     getValue funcp = Ok (valueFunction f) ->
     (builtinMakeArray szp funcp st).2 = st ++ [szp; funcp]
     /\ forall elems i elem,
          (builtinMakeArray szp funcp st).1 = Ok (valueArray elems) ->
          elems !! i = Some elem ->
          getValue elem
            = EvalCall f [readyValue (valueNumber (F64.of_Z (Z.of_nat i)))])
  /\ (forall v, getValue szp = Ok v -> (forall n, v <> valueNumber n) ->
      builtinMakeArray szp funcp st
        = (Err (TypeError (Some "number") (typename v)), st ++ [szp]))
  /\ (forall n v, getValue szp = Ok (valueNumber n) -> getValue funcp = Ok v ->
      (forall f, v <> valueFunction f) ->
      (builtinMakeArray szp funcp st).1
        = Err (TypeError (Some "function") (typename v))).
Proof.
  split; [|split].
  - intros n f Hsz Hfun. run. rewrite Hsz. simpl. rewrite Hfun. simpl.
    split; [rewrite <- app_assoc; reflexivity|].
    intros elems i elem [= <-] Hi.
    rewrite list_lookup_fmap in Hi.
    destruct (seqZ 0 (F64.to_int64 n) !! i) as [j|] eqn:Hj;
      [|discriminate].
    apply lookup_seqZ in Hj as [-> _]. injection Hi as <-.
    simpl. rewrite Z.add_0_l. reflexivity.
  - intros v Hsz Hv. run. rewrite Hsz.
    destruct v; try reflexivity. exfalso. exact (Hv _ eq_refl).
  - intros n v Hsz Hfun Hv. run. rewrite Hsz. simpl. rewrite Hfun.
    destruct v; try reflexivity. exfalso. exact (Hv _ eq_refl).
Qed.

(** X10: [extVar] on a name that the table of external variables does not
    hold fails with [Undefined external variable:] and the name; on a name
    it holds, it forces the potential value bound to it and returns what
    that comes to. *)
Theorem builtinExtVar_lookup namep name_ st :
  getValue namep = Ok (valueString name_) ->
  (extVars !! name_ = None ->
     builtinExtVar namep st
       = (Err (RuntimeError ("Undefined external variable: " +:+ name_)),
          st ++ [namep]))
  /\ (forall pv, extVars !! name_ = Some pv ->
      builtinExtVar namep st = (getValue pv, st ++ [namep; pv])).
Proof.
  intros Hname. split.
  - intros Hnone. run'. rewrite Hname. simpl. rewrite Hnone. reflexivity.
  - intros pv Hsome. run'. rewrite Hname. simpl. rewrite Hsome.
    unfold evaluate. rewrite <- app_assoc. reflexivity.
Qed.

(** ** [filter] and [flatMap] *)

(** The call of the predicate on [elem] forces to [true]. *)
Definition included (fun_ : evalCallable) (elem : potentialValue) : bool :=
  match getValue (call fun_ [elem]) with
  | Ok (valueBoolean true) => true
  | _ => false
  end.

(** The elements of the array that the call of the function on [elem]
    forces to. *)
Definition returned (fun_ : evalCallable) (elem : potentialValue)
    : list potentialValue :=
  match getValue (call fun_ [elem]) with
  | Ok (valueArray elements) => elements
  | _ => []
  end.

(** What forcing [pv] to an array comes to. *)
Definition forceArray (pv : potentialValue) : result value :=
  match getValue pv with
  | Ok (valueArray elements) => Ok (valueArray elements)
  | Ok v => Err (typeErrorSpecific v "array")
  | Err err => Err err
  | Panic msg => Panic msg
  end.

Lemma filterLoop_run fun_ elements elems st :
  Forall (fun elem => exists b,
            getValue (call fun_ [elem]) = Ok (valueBoolean b)) elements ->
  filterLoop fun_ elements elems st
    = (Ok (elems ++ List.filter (included fun_) elements),
       st ++ map (fun elem => call fun_ [elem]) elements).
Proof.
  intros Hall. revert elems st.
  induction Hall as [|elem rest [b Hb] Hall IH]; intros elems st.
  - simpl. rewrite !app_nil_r. reflexivity.
  - simpl. unfold bind, evaluateBoolean, bind, evaluate.
    unfold included at 1. rewrite Hb. simpl. rewrite IH.
    rewrite <- app_assoc. destruct b; simpl; rewrite <- ?app_assoc;
      reflexivity.
Qed.

Lemma filterLoop_stops fun_ pre bad post elems st :
  Forall (fun elem => exists b,
            getValue (call fun_ [elem]) = Ok (valueBoolean b)) pre ->
  (forall b, getValue (call fun_ [bad]) <> Ok (valueBoolean b)) ->
  exists r,
    filterLoop fun_ (pre ++ bad :: post) elems st
      = (r, st ++ map (fun elem => call fun_ [elem]) pre ++ [call fun_ [bad]])
    /\ (forall l, r <> Ok l)
    /\ match r, forceBoolean (call fun_ [bad]) with
       | Err e, Err e' => e = e'
       | Panic m, Panic m' => m = m'
       | _, _ => False
       end.
Proof.
  intros Hall Hbad. revert elems st.
  induction Hall as [|elem rest [b Hb] Hall IH]; intros elems st.
  - simpl. unfold bind, evaluateBoolean, bind, evaluate, forceBoolean.
    destruct (getValue (call fun_ [bad])) as [v|err|msg] eqn:Hcall; simpl.
    + destruct v; simpl;
        try (eexists; split; [reflexivity|]; split;
             [discriminate | reflexivity]).
      exfalso. exact (Hbad _ eq_refl).
    + eexists; split; [reflexivity|]. split; [discriminate | reflexivity].
    + eexists; split; [reflexivity|]. split; [discriminate | reflexivity].
  - simpl. unfold bind at 1. unfold evaluateBoolean, bind, evaluate.
    rewrite Hb. simpl.
    destruct (IH (if b then elems ++ [elem] else elems)
                 (st ++ [call fun_ [elem]])) as (r & Hrun & Hr).
    exists r. rewrite Hrun, <- app_assoc. auto.
Qed.

(** X11: [filter], with arguments forced to an array and a function whose
    call on every element forces to a boolean, returns the array of the
    elements whose call forced to [true], in their order and as the
    potential values they were.  It forces the array, then the function,
    then the call on each element in turn: the elements themselves are not
    forced. *)
Theorem builtinFilter_keeps funcp arrp f elements st :
  getValue arrp = Ok (valueArray elements) ->
  getValue funcp = Ok (valueFunction f) ->
  Forall (fun elem => exists b,
            getValue (call f [elem]) = Ok (valueBoolean b)) elements ->
  builtinFilter funcp arrp st
    = (Ok (valueArray (List.filter (included f) elements)),
       st ++ [arrp; funcp] ++ map (fun elem => call f [elem]) elements).
Proof.
  intros Harr Hfun Hall. run'. rewrite Harr. simpl. rewrite Hfun. simpl.
  rewrite (filterLoop_run f elements [] _ Hall). simpl.
  rewrite <- !app_assoc. reflexivity.
Qed.

(** X12: [filter] stops at the first element on which the call of the
    function does not force to a boolean: it fails there with the error of
    that call, or with a type error when the call forced to another value,
    and the calls on the elements after it are not forced. *)
Theorem builtinFilter_stops funcp arrp f pre bad post st :
  getValue arrp = Ok (valueArray (pre ++ bad :: post)) ->
  getValue funcp = Ok (valueFunction f) ->
  Forall (fun elem => exists b,
            getValue (call f [elem]) = Ok (valueBoolean b)) pre ->
  (forall b, getValue (call f [bad]) <> Ok (valueBoolean b)) ->
  (builtinFilter funcp arrp st).1 = forceBoolean (call f [bad])
  /\ (builtinFilter funcp arrp st).2
     = st ++ [arrp; funcp] ++ map (fun elem => call f [elem]) pre
          ++ [call f [bad]].
Proof.
  intros Harr Hfun Hall Hbad. run'. rewrite Harr. simpl. rewrite Hfun. simpl.
  destruct (filterLoop_stops f pre bad post [] ((st ++ [arrp]) ++ [funcp])
              Hall Hbad) as (r & Hrun & Hnot & Hr).
  rewrite Hrun.
  destruct r as [l|e|m]; [exfalso; exact (Hnot l eq_refl)| |];
    destruct (forceBoolean (call f [bad])) as [v'|e'|m'];
    try contradiction; subst; simpl; rewrite <- !app_assoc; auto.
Qed.

Lemma flatMapLoop_run fun_ elements elems st :
  Forall (fun elem => exists l,
            getValue (call fun_ [elem]) = Ok (valueArray l)) elements ->
  flatMapLoop fun_ elements elems st
    = (Ok (elems ++ concat (map (returned fun_) elements)),
       st ++ map (fun elem => call fun_ [elem]) elements).
Proof.
  intros Hall. revert elems st.
  induction Hall as [|elem rest [l Hl] Hall IH]; intros elems st.
  - simpl. rewrite !app_nil_r. reflexivity.
  - simpl. unfold bind, evaluateArray, bind, evaluate.
    unfold returned at 1. rewrite Hl. simpl. rewrite IH.
    rewrite <- !app_assoc. reflexivity.
Qed.

(** X13: [flatMap], with arguments forced to a function and an array on
    every element of which the call of the function forces to an array,
    returns the concatenation of those arrays, in the order of the
    elements.  It forces the array, then the function, then the call on
    each element in turn, and neither the elements nor the elements of the
    arrays returned. *)
Theorem builtinFlatMap_concat funcp arrp f elements st :
  getValue arrp = Ok (valueArray elements) ->
  getValue funcp = Ok (valueFunction f) ->
  Forall (fun elem => exists l,
            getValue (call f [elem]) = Ok (valueArray l)) elements ->
  builtinFlatMap funcp arrp st
    = (Ok (valueArray (concat (map (returned f) elements))),
       st ++ [arrp; funcp] ++ map (fun elem => call f [elem]) elements).
Proof.
  intros Harr Hfun Hall. run'. rewrite Harr. simpl. rewrite Hfun. simpl.
  rewrite (flatMapLoop_run f elements [] _ Hall). simpl.
  rewrite <- !app_assoc. reflexivity.
Qed.

(** X14: [filter] and [flatMap] force their second argument, the array,
    before their first, the function: when forcing the array fails, they
    fail with that error and the function is not forced; and the function
    must be a function even when the array is empty. *)
Theorem filter_flatMap_array_first funcp arrp st :
  (forall err, getValue arrp = Err err ->
     builtinFilter funcp arrp st = (Err err, st ++ [arrp])
     /\ builtinFlatMap funcp arrp st = (Err err, st ++ [arrp]))
  /\ (forall v, getValue arrp = Ok (valueArray []) -> getValue funcp = Ok v ->
      (forall f, v <> valueFunction f) ->
      (builtinFilter funcp arrp st).1
        = Err (TypeError (Some "function") (typename v))
      /\ (builtinFlatMap funcp arrp st).1
        = Err (TypeError (Some "function") (typename v))).
Proof.
  split.
  - intros err Harr. run'. rewrite Harr. auto.
  - intros v Harr Hfun Hv. run'. rewrite Harr. simpl. rewrite Hfun.
    destruct v; auto. exfalso. exact (Hv _ eq_refl).
Qed.

(** ** [$objectFlatMerge], what it forces *)

Lemma builtinUglyObjectFlatMerge_run objarrp elems objs st :
  getValue objarrp = Ok (valueArray elems) ->
  Forall2 (fun pv o => getValue pv = Ok (ofSimple o)) elems objs ->
  (forall n, ~ definedTwice objs n) ->
  exists newFields,
    builtinUglyObjectFlatMerge objarrp st
      = (Ok (valueOfObject (valueSimpleObject ∅ newFields [])),
         st ++ objarrp :: elems)
    /\ forall n f, newFields !! n = Some f <->
         exists o, o ∈ objs /\ copiedFields o !! n = Some f.
Proof.
  intros Harr Hall Hnot.
  assert (Hrun : builtinUglyObjectFlatMerge objarrp st
    = if (length elems =? 0)%nat
      then (Ok (valueOfObject (valueSimpleObject ∅ ∅ [])), st ++ [objarrp])
      else match flatMergeObjects elems ∅ (st ++ [objarrp]) with
           | (Ok newFields, st') =>
               (Ok (makeValueSimpleObject ∅ newFields []), st')
           | (Err err, st') => (Err err, st')
           | (Panic msg, st') => (Panic msg, st')
           end).
  { unfold builtinUglyObjectFlatMerge. run. rewrite Harr. simpl.
    destruct (length elems =? 0)%nat; reflexivity. }
  rewrite Hrun. clear Hrun.
  destruct elems as [|elem elems].
  - apply Forall2_nil_inv_l in Hall as ->. exists ∅. simpl.
    split; [reflexivity|]. intros n f. rewrite lookup_empty.
    split; [discriminate|]. intros (o & Ho & _). inversion Ho.
  - destruct (flatMergeObjects_merge (elem :: elems) objs ∅
                (st ++ [objarrp]) Hall) as (m & Hm & Hlookup).
    { split; [apply not_definedTwice_NoDup; exact Hnot|].
      intros n _. apply lookup_empty. }
    exists m. simpl length. simpl Nat.eqb. cbv iota. rewrite Hm.
    rewrite <- app_assoc. split; [reflexivity|].
    intros n f. rewrite Hlookup, lookup_empty.
    split; [intros [?|?]; [discriminate|assumption] | auto].
Qed.

(** X15: a merge by [$objectFlatMerge] that succeeds forces the array and
    then each of its elements, in order, and nothing else: no field of any
    of the objects is forced. *)
Theorem builtinUglyObjectFlatMerge_forces objarrp elems objs st :
  getValue objarrp = Ok (valueArray elems) ->
  Forall2 (fun pv o => getValue pv = Ok (ofSimple o)) elems objs ->
  (forall n, ~ definedTwice objs n) ->
  (builtinUglyObjectFlatMerge objarrp st).2 = st ++ objarrp :: elems.
Proof.
  intros Harr Hall Hnot.
  destruct (builtinUglyObjectFlatMerge_run objarrp elems objs st
              Harr Hall Hnot) as (m & -> & _).
  reflexivity.
Qed.

End Evaluator.

(** ** The static analyzer *)

(** Induction on a tree, with the induction hypothesis for every child in
    the lists of a node. *)
Lemma Node_nested_ind (P : Node -> Prop) :
  (forall target positional named,
      P target -> Forall P positional -> Forall (fun arg => P arg.2) named ->
      P (Apply target positional named)) ->
  (forall elements, Forall P elements -> P (Array elements)) ->
  (forall lhs op rhs, P lhs -> P rhs -> P (Binary lhs op rhs)) ->
  (forall cond branchTrue branchFalse,
      P cond -> P branchTrue -> P branchFalse ->
      P (Conditional cond branchTrue branchFalse)) ->
  (forall asserts fields,
      Forall P asserts ->
      Forall (fun fld => match fld with
                         | mkDesugaredObjectField _ fname fbody _ =>
                             P fname /\ P fbody
                         end) fields ->
      P (DesugaredObject asserts fields)) ->
  (forall expr, P expr -> P (Error expr)) ->
  (forall required optional body,
      Forall (fun param => P param.2) optional -> P body ->
      P (Function required optional body)) ->
  (forall file, P (Import file)) ->
  (forall file, P (ImportStr file)) ->
  (forall index, P index -> P (InSuper index)) ->
  (forall index, P index -> P (SuperIndex index)) ->
  (forall target index, P target -> P index -> P (Index target index)) ->
  (forall binds body,
      Forall (fun bind_ => P bind_.2) binds -> P body ->
      P (Local binds body)) ->
  (forall b, P (LiteralBoolean b)) ->
  P LiteralNull ->
  (forall x original, P (LiteralNumber x original)) ->
  (forall str, P (LiteralString str)) ->
  P Self ->
  (forall op expr, P expr -> P (Unary op expr)) ->
  (forall id, P (Var id)) ->
  (forall ty, P (Sugar ty)) ->
  forall a, P a.
Proof.
  intros HApply HArray HBinary HConditional HObject HError HFunction HImport
    HImportStr HInSuper HSuperIndex HIndex HLocal HBoolean HNull HNumber
    HString HSelf HUnary HVar HSugar.
  fix IH 1. intros a. destruct a as
    [target positional named|elements|lhs op rhs|cond branchTrue branchFalse
    |asserts fields|expr|required optional body|file|file|index|index
    |target index|binds body|b| |x original|str| |op expr|id|ty].
  - apply HApply; [apply IH| |].
    + induction positional as [|arg rest IHrest]; constructor;
        [apply IH | exact IHrest].
    + induction named as [|[argName arg] rest IHrest]; constructor;
        [apply IH | exact IHrest].
  - apply HArray.
    induction elements as [|elem rest IHrest]; constructor;
      [apply IH | exact IHrest].
  - apply HBinary; apply IH.
  - apply HConditional; apply IH.
  - apply HObject.
    + induction asserts as [|assert rest IHrest]; constructor;
        [apply IH | exact IHrest].
    + induction fields as [|[hd fname fbody ps] rest IHrest]; constructor;
        [split; apply IH | exact IHrest].
  - apply HError, IH.
  - apply HFunction; [|apply IH].
    induction optional as [|[paramName arg] rest IHrest]; constructor;
      [apply IH | exact IHrest].
  - apply HImport.
  - apply HImportStr.
  - apply HInSuper, IH.
  - apply HSuperIndex, IH.
  - apply HIndex; apply IH.
  - apply HLocal; [|apply IH].
    induction binds as [|[variable bindBody] rest IHrest]; constructor;
      [apply IH | exact IHrest].
  - apply HBoolean.
  - apply HNull.
  - apply HNumber.
  - apply HString.
  - apply HSelf.
  - apply HUnary, IH.
  - apply HVar.
  - apply HSugar.
Qed.

(** The outcome [r] of a visit agrees with the proposition [V]: a nil error
    when [V] fails, a static error when [V] holds. *)
Definition agrees (r : result IdentifierSet) (V : Prop) : Prop :=
  (exists freeVars, r = Ok freeVars /\ ~ V)
  \/ (exists msg, r = Err (StaticError msg) /\ V).

(** The outcome [r] of a visit, against the proposition [V] (the tree
    violates the scoping rules) and the boolean [d] (the tree is made of
    the node kinds the analyzer has a case for): a nil error comes with a
    tree of those kinds that keeps the rules, an error is a static error and
    comes with a violation, and a panic is that of the default branch and
    comes with a node of another kind. *)
Definition outcome (r : result IdentifierSet) (V : Prop) (d : bool) : Prop :=
  match r with
  | Ok _ => ~ V /\ d = true
  | Err e => (exists msg, e = StaticError msg) /\ V
  | Panic msg => msg = "Unexpected node" /\ d = false
  end.

Lemma outcome_iff r V V' d d' :
  outcome r V d -> (V <-> V') -> d = d' -> outcome r V' d'.
Proof.
  intros Hr Hiff <-. destruct r as [fv|e|msg]; simpl in *;
    destruct Hr as [H1 H2]; (split; [tauto || exact H1 | tauto || exact H2]).
Qed.

Lemma outcome_start : outcome (Ok ∅) False true.
Proof. split; [tauto | reflexivity]. Qed.

Lemma visitNext_outcome r s V1 V2 d1 d2 :
  outcome s V1 d1 -> outcome r V2 d2 ->
  outcome (visitNext r s) (V1 \/ V2) (d1 && d2).
Proof.
  destruct s as [fv1|e1|msg1], r as [fv2|e2|msg2]; simpl;
    intros [H1 Hd1] [H2 Hd2]; subst; simpl;
    (split; [tauto || assumption | reflexivity || tauto]).
Qed.

Lemma removeAll_outcome ids s V d :
  outcome s V d -> outcome (removeAll ids s) V d.
Proof. destruct s; simpl; auto. Qed.

(** A loop over the children [l], each step of which keeps the outcome. *)
Lemma fold_outcome {A} (step : analysisState -> A -> analysisState)
    (Vx : A -> Prop) (dx : A -> bool) (l : list A) (s : analysisState)
    (V0 : Prop) (d0 : bool) :
  Forall (fun x => forall s V d,
            outcome s V d -> outcome (step s x) (V \/ Vx x) (d && dx x)) l ->
  outcome s V0 d0 ->
  outcome (fold_left step l s) (V0 \/ exists x, x ∈ l /\ Vx x)
          (d0 && forallb dx l).
Proof.
  intros Hall. revert s V0 d0.
  induction Hall as [|x l Hx Hall IH]; intros s V0 d0 Hs; simpl.
  - apply (outcome_iff _ _ _ _ _ Hs); [|symmetry; apply andb_true_r].
    split; [auto|]. intros [?|(x & Hx & _)]; [assumption | inversion Hx].
  - apply (outcome_iff _ _ _ _ _ (IH _ _ _ (Hx _ _ _ Hs)));
      [|symmetry; apply andb_assoc].
    setoid_rewrite elem_of_cons. split.
    + intros [[?|?]|(y & Hy & HVy)]; eauto 6.
    + intros [?|(y & [->|Hy] & HVy)]; eauto 6.
Qed.

(** The visits of the children [get x] of a node, in a loop. *)
Lemma visit_children {A} (get : A -> Node) (l : list A) inObject vars s V0 d0 :
  Forall (fun x => forall inObject vars,
            outcome (analyzeVisit (get x) inObject vars)
                    (violation inObject vars (get x)) (desugared (get x))) l ->
  outcome s V0 d0 ->
  outcome (fold_left (fun s x => visitNext (analyzeVisit (get x) inObject vars) s)
                     l s)
          (V0 \/ exists x, x ∈ l /\ violation inObject vars (get x))
          (d0 && forallb (fun x => desugared (get x)) l).
Proof.
  intros Hall Hs.
  apply (fold_outcome _ (fun x => violation inObject vars (get x))
           (fun x => desugared (get x))); [|exact Hs].
  apply (Forall_impl _ _ _ Hall).
  intros x Hx s' V' d' Hs'. apply visitNext_outcome; auto.
Qed.

Create HintDb violation.
#[local] Hint Constructors violation : violation.

(** Whatever the tree, [analyzeVisit] returns a nil error only on a tree of
    the node kinds it has a case for that keeps the scoping rules, a static
    error only on a tree that violates them, and otherwise panics in its
    default branch, on a tree with a node of another kind. *)
Lemma analyzeVisit_outcome (a : Node) :
  forall inObject vars,
    outcome (analyzeVisit a inObject vars) (violation inObject vars a)
            (desugared a).
Proof.
  induction a as
    [target positional named IHtarget IHpositional IHnamed
    |elements IHelements
    |lhs op rhs IHlhs IHrhs
    |cond branchTrue branchFalse IHcond IHtrue IHfalse
    |asserts fields IHasserts IHfields
    |expr IHexpr
    |required optional body IHoptional IHbody
    |file|file
    |index IHindex|index IHindex
    |target index IHtarget IHindex
    |binds body IHbinds IHbody
    |b| |x original|str| |op expr IHexpr|id|ty] using Node_nested_ind;
    intros inObject vars; simpl analyzeVisit.
  - pose proof (visitNext_outcome _ _ _ _ _ _ outcome_start
                  (IHtarget inObject vars)) as H1.
    pose proof (visit_children (fun x => x) positional inObject vars _ _ _
                  IHpositional H1) as H2.
    pose proof (visit_children snd named inObject vars _ _ _
                  IHnamed H2) as H3.
    apply (outcome_iff _ _ _ _ _ H3); [|reflexivity]. split.
    + intros [[[[]|?]|(x & ? & ?)]|(x & ? & ?)]; eauto with violation.
    + intros H; inversion H; subst; eauto 8.
  - pose proof (visit_children (fun x => x) elements inObject vars _ _ _
                  IHelements outcome_start) as H1.
    apply (outcome_iff _ _ _ _ _ H1); [|reflexivity]. split.
    + intros [[]|(x & ? & ?)]; eauto with violation.
    + intros H; inversion H; subst; eauto 8.
  - pose proof (visitNext_outcome _ _ _ _ _ _
                  (visitNext_outcome _ _ _ _ _ _ outcome_start
                     (IHlhs inObject vars))
                  (IHrhs inObject vars)) as H1.
    apply (outcome_iff _ _ _ _ _ H1); [|reflexivity]. split.
    + intros [[[]|?]|?]; eauto with violation.
    + intros H; inversion H; subst; eauto 8.
  - pose proof (visitNext_outcome _ _ _ _ _ _
                  (visitNext_outcome _ _ _ _ _ _
                     (visitNext_outcome _ _ _ _ _ _ outcome_start
                        (IHcond inObject vars))
                     (IHtrue inObject vars))
                  (IHfalse inObject vars)) as H1.
    apply (outcome_iff _ _ _ _ _ H1); [|reflexivity]. split.
    + intros [[[[]|?]|?]|?]; eauto with violation.
    + intros H; inversion H; subst; eauto 8.
  - set (dfield := fun fld =>
                     match fld with
                     | mkDesugaredObjectField _ fname fbody _ =>
                         desugared fname && desugared fbody
                     end).
    assert (H1 : outcome
      (fold_left (fun s fld =>
                    match fld with
                    | mkDesugaredObjectField _ fname fbody _ =>
                        visitNext (analyzeVisit fbody true vars)
                          (visitNext (analyzeVisit fname inObject vars) s)
                    end) fields (Ok ∅))
      (False \/ exists fld, fld ∈ fields /\
         match fld with
         | mkDesugaredObjectField _ fname fbody _ =>
             violation inObject vars fname \/ violation true vars fbody
         end)
      (true && forallb dfield fields)).
    { apply fold_outcome; [|exact outcome_start].
      apply (Forall_impl _ _ _ IHfields).
      intros [hd fname fbody ps] [IHname IHbody] s V d Hs.
      pose proof (visitNext_outcome _ _ _ _ _ _
                    (visitNext_outcome _ _ _ _ _ _ Hs
                       (IHname inObject vars))
                    (IHbody true vars)) as Hstep.
      apply (outcome_iff _ _ _ _ _ Hstep); [tauto|].
      simpl. symmetry. apply andb_assoc. }
    pose proof (visit_children (fun x => x) asserts true vars _ _ _
                  IHasserts H1) as H2.
    apply (outcome_iff _ _ _ _ _ H2); [|simpl; apply andb_comm]. split.
    + intros [[[]|([hd fname fbody ps] & ? & [?|?])]|(x & ? & ?)];
        eauto with violation.
    + intros H; inversion H; subst.
      * left. right. eexists. split; [eassumption|]. simpl. auto.
      * left. right. eexists. split; [eassumption|]. simpl. auto.
      * right. eauto.
  - pose proof (visitNext_outcome _ _ _ _ _ _ outcome_start
                  (IHexpr inObject vars)) as H1.
    apply (outcome_iff _ _ _ _ _ H1); [|reflexivity]. split.
    + intros [[]|?]; eauto with violation.
    + intros H; inversion H; subst; eauto.
  - set (newVars := list_to_set (required ++ map fst optional) ∪ vars).
    pose proof (visit_children snd optional inObject newVars _ _ _
                  IHoptional outcome_start) as H1.
    pose proof (visitNext_outcome _ _ _ _ _ _ H1
                  (IHbody inObject newVars)) as H2.
    apply removeAll_outcome with (ids := required ++ map fst optional) in H2.
    apply (outcome_iff _ _ _ _ _ H2); [|reflexivity]. split.
    + intros [[[]|(x & ? & ?)]|?]; eauto with violation.
    + intros H; inversion H; subst; eauto 8.
  - apply (outcome_iff _ _ _ _ _ outcome_start); [|reflexivity].
    split; [tauto|]. intros H; inversion H.
  - apply (outcome_iff _ _ _ _ _ outcome_start); [|reflexivity].
    split; [tauto|]. intros H; inversion H.
  - destruct inObject.
    + pose proof (visitNext_outcome _ _ _ _ _ _ outcome_start
                    (IHindex true vars)) as H1.
      apply (outcome_iff _ _ _ _ _ H1); [|reflexivity]. split.
      * intros [[]|?]; eauto with violation.
      * intros H; inversion H; subst; eauto.
    + split; [eexists; reflexivity | constructor].
  - destruct inObject.
    + pose proof (visitNext_outcome _ _ _ _ _ _ outcome_start
                    (IHindex true vars)) as H1.
      apply (outcome_iff _ _ _ _ _ H1); [|reflexivity]. split.
      * intros [[]|?]; eauto with violation.
      * intros H; inversion H; subst; eauto.
    + split; [eexists; reflexivity | constructor].
  - pose proof (visitNext_outcome _ _ _ _ _ _
                  (visitNext_outcome _ _ _ _ _ _ outcome_start
                     (IHtarget inObject vars))
                  (IHindex inObject vars)) as H1.
    apply (outcome_iff _ _ _ _ _ H1); [|reflexivity]. split.
    + intros [[[]|?]|?]; eauto with violation.
    + intros H; inversion H; subst; eauto 8.
  - set (newVars := list_to_set (map fst binds) ∪ vars).
    pose proof (visit_children snd binds inObject newVars _ _ _
                  IHbinds outcome_start) as H1.
    pose proof (visitNext_outcome _ _ _ _ _ _ H1
                  (IHbody inObject newVars)) as H2.
    apply removeAll_outcome with (ids := map fst binds) in H2.
    apply (outcome_iff _ _ _ _ _ H2); [|reflexivity]. split.
    + intros [[[]|(x & ? & ?)]|?]; eauto with violation.
    + intros H; inversion H; subst; eauto 8.
  - apply (outcome_iff _ _ _ _ _ outcome_start); [|reflexivity].
    split; [tauto|]. intros H; inversion H.
  - apply (outcome_iff _ _ _ _ _ outcome_start); [|reflexivity].
    split; [tauto|]. intros H; inversion H.
  - apply (outcome_iff _ _ _ _ _ outcome_start); [|reflexivity].
    split; [tauto|]. intros H; inversion H.
  - apply (outcome_iff _ _ _ _ _ outcome_start); [|reflexivity].
    split; [tauto|]. intros H; inversion H.
  - destruct inObject.
    + apply (outcome_iff _ _ _ _ _ outcome_start); [|reflexivity].
      split; [tauto|]. intros H; inversion H.
    + split; [eexists; reflexivity | constructor].
  - pose proof (visitNext_outcome _ _ _ _ _ _ outcome_start
                  (IHexpr inObject vars)) as H1.
    apply (outcome_iff _ _ _ _ _ H1); [|reflexivity]. split.
    + intros [[]|?]; eauto with violation.
    + intros H; inversion H; subst; eauto.
  - case_decide as Hid.
    + split; [|reflexivity]. intros H; inversion H; subst. contradiction.
    + split; [eexists; reflexivity|]. constructor. exact Hid.
  - split; reflexivity.
Qed.

(** On a desugared tree, [analyzeVisit] returns a static error when the
    tree violates the scoping rules, and a nil error when it does not. *)
Lemma analyzeVisit_agrees (a : Node) :
  desugared a = true ->
  forall inObject vars,
    agrees (analyzeVisit a inObject vars) (violation inObject vars a).
Proof.
  intros Hd inObject vars.
  pose proof (analyzeVisit_outcome a inObject vars) as Hout.
  rewrite Hd in Hout. unfold agrees.
  destruct (analyzeVisit a inObject vars) as [fv|e|msg]; simpl in Hout.
  - left. exists fv. split; [reflexivity | apply Hout].
  - right. destruct Hout as [[msg ->] Hviol]. eauto.
  - destruct Hout as [_ Hfalse]. discriminate.
Qed.

(** C7, as amended: static analysis is started outside any object with
    only [std] in scope.  On a tree made of the node kinds the analyzer has
    a case for, it fails with a static error exactly when the tree contains
    a [Var] whose identifier is not in its scope or a [Self], [SuperIndex]
    or [InSuper] outside any object (the names of the fields of an object
    being outside it), and succeeds on the trees with neither.  On a tree
    with a node of another kind it never succeeds: it ends in the panic of
    the default branch or in a static error, a static error only when the
    tree has such a violation, so that without one it panics. *)
Theorem analyze_static_errors (node : Node) :
  (desugared node = true ->
   ((exists msg, analyze node = Err (StaticError msg))
      <-> violation false {["std"]} node)
   /\ (~ violation false {["std"]} node ->
       exists freeVars, analyze node = Ok freeVars))
  /\ (desugared node = false ->
      (forall freeVars, analyze node <> Ok freeVars)
      /\ (analyze node = Panic "Unexpected node"
          \/ (exists msg, analyze node = Err (StaticError msg))
             /\ violation false {["std"]} node)
      /\ (~ violation false {["std"]} node ->
          analyze node = Panic "Unexpected node")).
Proof.
  unfold analyze. split; intros Hd.
  - destruct (analyzeVisit_agrees node Hd false {["std"]})
      as [(fv & Hrun & Hnot)|(msg & Hrun & Hviol)]; rewrite Hrun.
    + split; [|eauto]. split; [|contradiction].
      intros [msg Hmsg]. discriminate.
    + split; [|contradiction]. split; eauto.
  - pose proof (analyzeVisit_outcome node false {["std"]}) as Hout.
    rewrite Hd in Hout.
    destruct (analyzeVisit node false {["std"]}) as [fv|e|msg];
      simpl in Hout.
    + destruct Hout as [_ Hfalse]. discriminate.
    + destruct Hout as [[msg ->] Hviol].
      split; [discriminate|]. split; [right; eauto | contradiction].
    + destruct Hout as [-> _].
      split; [discriminate|]. split; [left|]; reflexivity.
Qed.

(** ** Runs on concrete inputs *)

(** An interpreter in which no function can be called, and a manifester
    for the values without parts. *)
Definition noCalls (f : evalCallable) (args : list potentialValue)
    : result value :=
  Err (RuntimeError "no function to call").

Definition manifestAtom (v : value) : result string :=
  match v with
  | valueNull => Ok "null"
  | valueBoolean true => Ok "true"
  | valueBoolean false => Ok "false"
  | _ => Err (RuntimeError "Couldn't manifest function")
  end.

Definition number (i : Z) : potentialValue :=
  readyValue (valueNumber (F64.of_Z i)).

(** [{ a: e1, b:: e2 }] with the bodies left as [null]. *)
Definition visibleField : valueSimpleObjectField :=
  mkValueSimpleObjectField ObjectFieldInherit (codeUnboundField LiteralNull).
Definition hiddenField : valueSimpleObjectField :=
  mkValueSimpleObjectField ObjectFieldHidden (codeUnboundField LiteralNull).

Definition objA : simpleObject := (∅, {["a" := visibleField]}, []).
Definition objB : simpleObject := (∅, {["b" := hiddenField]}, []).

(** [1 + 2] is the number 3. *)
Lemma builtinPlus_polymorphic_witness :
  getValue noCalls (number 1) = Ok (valueNumber (F64.of_Z 1))
  /\ getValue noCalls (number 2) = Ok (valueNumber (F64.of_Z 2))
  /\ (builtinPlus noCalls manifestAtom (number 1) (number 2) []).1
      = Ok (valueNumber (F64.add (F64.of_Z 1) (F64.of_Z 2))).
Proof.
  split; [reflexivity|]. split; [reflexivity|].
  apply (proj1 (builtinPlus_polymorphic noCalls manifestAtom
                  (number 1) (number 2)
                  (valueNumber (F64.of_Z 1)) (valueNumber (F64.of_Z 2)) []
                  eq_refl eq_refl));
    reflexivity.
Defined.

(** [false && error "b"] is [false], and the right operand is not forced. *)
Lemma builtinAnd_builtinOr_short_circuit_witness :
  let xp := readyValue (valueBoolean false) in
  let yp := thunk "y" (Err (RuntimeError "b")) in
  getValue noCalls xp = Ok (valueBoolean false)
  /\ builtinAnd noCalls xp yp [] = (Ok (valueBoolean false), [xp]).
Proof.
  split; [reflexivity|].
  apply (proj1 (builtinAnd_builtinOr_short_circuit noCalls
                  (readyValue (valueBoolean false))
                  (thunk "y" (Err (RuntimeError "b"))) []));
    reflexivity.
Defined.

(** [primitiveEquals(null, function)] is [false]. *)
Lemma primitiveEquals_typenames_witness :
  let xp := readyValue valueNull in
  let yp := readyValue (valueFunction (builtin "type")) in
  getValue noCalls xp = Ok valueNull
  /\ getValue noCalls yp = Ok (valueFunction (builtin "type"))
  /\ typename valueNull <> typename (valueFunction (builtin "type"))
  /\ (primitiveEquals noCalls xp yp []).1 = Ok (valueBoolean false).
Proof.
  split; [reflexivity|]. split; [reflexivity|]. split; [discriminate|].
  apply (proj1 (primitiveEquals_typenames noCalls
                  (readyValue valueNull)
                  (readyValue (valueFunction (builtin "type")))
                  valueNull (valueFunction (builtin "type")) []
                  eq_refl eq_refl)).
  discriminate.
Defined.

(** [makeArray(5 / 2, f)] has two elements, 2 being 5 / 2 truncated toward
    zero; [makeArray(1e19, f)] has none, 1e19 converting to the smallest
    int64. *)
Lemma builtinMakeArray_truncates_witness :
  let n := F64.div (F64.of_Z 5) (F64.of_Z 2) in
  let szp := readyValue (valueNumber n) in
  let funcp := readyValue (valueFunction (builtin "type")) in
  (getValue noCalls szp = Ok (valueNumber n)
   /\ getValue noCalls funcp = Ok (valueFunction (builtin "type"))
   /\ F64.to_int64 n = 2%Z
   /\ (builtinMakeArray noCalls szp funcp []).1
       = Ok (valueArray
               (map (fun i => callThunk (builtin "type")
                        [readyValue (valueNumber (F64.of_Z (Z.of_nat i)))])
                    (seq 0 (Z.to_nat (Z.max (F64.to_int64 n) 0)))))
   /\ F64.to_int64 n = F64.trunc n)
  /\ ((F64.maxInt64 < F64.trunc (F64.of_Z (10 ^ 19)))%Z
      /\ F64.to_int64 (F64.of_Z (10 ^ 19)) = F64.minInt64
      /\ (builtinMakeArray noCalls (number (10 ^ 19)) funcp []).1
         = Ok (valueArray [])).
Proof.
  pose proof (builtinMakeArray_truncates noCalls
                (readyValue (valueNumber (F64.div (F64.of_Z 5) (F64.of_Z 2))))
                (readyValue (valueFunction (builtin "type")))
                (F64.div (F64.of_Z 5) (F64.of_Z 2)) (builtin "type") []
                eq_refl eq_refl) as (Harray & Hrange & _ & _).
  pose proof (builtinMakeArray_truncates noCalls
                (number (10 ^ 19))
                (readyValue (valueFunction (builtin "type")))
                (F64.of_Z (10 ^ 19)) (builtin "type") []
                eq_refl eq_refl) as (_ & _ & _ & Hout).
  assert (Hhuge : (F64.maxInt64 < F64.trunc (F64.of_Z (10 ^ 19)))%Z)
    by (vm_compute; reflexivity).
  split.
  - split; [reflexivity|]. split; [reflexivity|].
    split; [vm_compute; reflexivity|]. split; [exact Harray|].
    apply Hrange; [reflexivity|].
    split; vm_compute; discriminate.
  - split; [exact Hhuge|]. apply Hout. right. right. exact Hhuge.
Defined.

(** [makeArray(-3, f)] and [makeArray(1 / 2, f)] are empty. *)
Example builtinMakeArray_negative_fraction :
  let funcp := readyValue (valueFunction (builtin "type")) in
  (builtinMakeArray noCalls (number (-3)) funcp []).1 = Ok (valueArray [])
  /\ (builtinMakeArray noCalls
        (readyValue (valueNumber (F64.div (F64.of_Z 1) (F64.of_Z 2))))
        funcp []).1 = Ok (valueArray []).
Proof. split; vm_compute; reflexivity. Qed.

(** C10, as stated, fails: the size 1e19 truncated toward zero is the
    integer 10^19, yet [makeArray(1e19, f)] is the empty array and not an
    array of 10^19 thunks. *)
Lemma builtinMakeArray_huge_counterexample :
  let funcp := readyValue (valueFunction (builtin "type")) in
  F64.valid (F64.of_Z (10 ^ 19)) = true
  /\ F64.trunc (F64.of_Z (10 ^ 19)) = (10 ^ 19)%Z
  /\ (builtinMakeArray noCalls (number (10 ^ 19)) funcp []).1
      = Ok (valueArray [])
  /\ ~ (exists elems,
          (builtinMakeArray noCalls (number (10 ^ 19)) funcp []).1
            = Ok (valueArray elems)
          /\ Z.of_nat (length elems)
              = Z.max (F64.trunc (F64.of_Z (10 ^ 19))) 0).
Proof.
  assert (Hrun : (builtinMakeArray noCalls (number (10 ^ 19))
                    (readyValue (valueFunction (builtin "type"))) []).1
                 = Ok (valueArray []))
    by (vm_compute; reflexivity).
  split; [vm_compute; reflexivity|]. split; [vm_compute; reflexivity|].
  split; [exact Hrun|].
  intros (elems & Helems & Hlen). rewrite Hrun in Helems.
  injection Helems as <-. vm_compute in Hlen. discriminate.
Qed.

(** The merge of [{ a: null }] and [{ b:: null }]. *)
Lemma builtinUglyObjectFlatMerge_union_witness :
  let elems := [readyValue (ofSimple objA); readyValue (ofSimple objB)] in
  let objarrp := readyValue (valueArray elems) in
  getValue noCalls objarrp = Ok (valueArray elems)
  /\ Forall2 (fun pv o => getValue noCalls pv = Ok (ofSimple o))
             elems [objA; objB]
  /\ (forall m : valueSimpleObjectFieldMap, map_to_list m ≡ₚ map_to_list m)
  /\ (((forall n, ~ definedTwice [objA; objB] n) ->
        exists newFields,
          (builtinUglyObjectFlatMerge noCalls map_to_list objarrp []).1
            = Ok (valueOfObject (valueSimpleObject ∅ newFields []))
          /\ forall n f, newFields !! n = Some f <->
                exists o, o ∈ [objA; objB] /\ copiedFields o !! n = Some f)
       /\ ((exists n, definedTwice [objA; objB] n) ->
            exists n, definedTwice [objA; objB] n
              /\ (builtinUglyObjectFlatMerge noCalls map_to_list objarrp []).1
                  = Err (RuntimeError (duplicateFieldNameErrMsg n)))
       /\ (elems = [] ->
            (builtinUglyObjectFlatMerge noCalls map_to_list objarrp []).1
              = Ok (valueOfObject (valueSimpleObject ∅ ∅ [])))).
Proof.
  split; [reflexivity|].
  split; [repeat constructor|].
  split; [reflexivity|].
  apply (builtinUglyObjectFlatMerge_union noCalls map_to_list
           (fun m => reflexivity _)
           (readyValue (valueArray [readyValue (ofSimple objA);
                                    readyValue (ofSimple objB)]))
           [readyValue (ofSimple objA); readyValue (ofSimple objB)]
           [objA; objB] []);
    [reflexivity | repeat constructor].
Defined.

(** [local x = null; x] keeps the scoping rules and passes the analysis,
    and the analysis of [[null, e[:]]], which has a slice in it, panics. *)
Lemma analyze_static_errors_witness :
  let node := Local [("x", LiteralNull)] (Var "x") in
  let sliced := Array [LiteralNull; Sugar AST_SLICE] in
  (desugared node = true
   /\ ((exists msg, analyze node = Err (StaticError msg))
         <-> violation false {["std"]} node)
   /\ ~ violation false {["std"]} node
   /\ exists freeVars, analyze node = Ok freeVars)
  /\ (desugared sliced = false
      /\ ~ violation false {["std"]} sliced
      /\ analyze sliced = Panic "Unexpected node").
Proof.
  assert (Hkeeps : ~ violation false {["std"]}
                       (Local [("x", LiteralNull)] (Var "x"))).
  { intros H. inversion H; subst.
    - repeat match goal with
             | Hin : _ ∈ _ :: _ |- _ => apply elem_of_cons in Hin as [->|Hin]
             | Hin : _ ∈ [] |- _ => inversion Hin
             | Hviol : violation _ _ (_, LiteralNull).2 |- _ => inversion Hviol
             end.
    - match goal with
      | Hviol : violation _ _ (Var _) |- _ => inversion Hviol; subst
      end.
      match goal with Hnot : _ ∉ _ |- _ => apply Hnot end.
      apply elem_of_union_l, elem_of_list_to_set, elem_of_cons. auto. }
  assert (Hnot : ~ violation false {["std"]}
                     (Array [LiteralNull; Sugar AST_SLICE])).
  { intros H. inversion H; subst.
    repeat match goal with
           | Hin : _ ∈ _ :: _ |- _ => apply elem_of_cons in Hin as [->|Hin]
           | Hin : _ ∈ [] |- _ => inversion Hin
           | Hviol : violation _ _ LiteralNull |- _ => inversion Hviol
           | Hviol : violation _ _ (Sugar _) |- _ => inversion Hviol
           end. }
  pose proof (proj1 (analyze_static_errors
                       (Local [("x", LiteralNull)] (Var "x")))
                    eq_refl) as [Hiff Hok].
  split.
  - split; [reflexivity|]. split; [exact Hiff|].
    split; [exact Hkeeps | exact (Hok Hkeeps)].
  - split; [reflexivity|]. split; [exact Hnot|].
    exact (proj2 (proj2 (proj2 (analyze_static_errors
                                  (Array [LiteralNull; Sugar AST_SLICE]))
                               eq_refl))
                 Hnot).
Defined.

(** C7, as stated, fails: a slice node holds no variable and no [self] or
    [super], and the analysis of it does not succeed: it panics. *)
Lemma analyze_slice_counterexample :
  ~ violation false {["std"]} (Sugar AST_SLICE)
  /\ analyze (Sugar AST_SLICE) = Panic "Unexpected node"
  /\ ~ (exists freeVars, analyze (Sugar AST_SLICE) = Ok freeVars).
Proof.
  split; [intros H; inversion H|]. split; [reflexivity|].
  intros [freeVars H]. discriminate.
Qed.

(** C8, as stated, fails: using the placeholder of the [%] slot does not
    panic. *)
Lemma todo_counterexample :
  bopBuiltins noCalls manifestAtom BopPercent = Some todo
  /\ ~ (exists msg,
          (function todo (number 1) (number 2) []).1 = Panic msg).
Proof. split; [reflexivity|]. intros [msg H]. discriminate. Qed.

(** ** [$objectFlatMerge] and the order of Go's map range *)

(** X16: a merge by [$objectFlatMerge] that succeeds does not depend on the
    order in which Go ranges over the field tables: any two orders give the
    same object and force the same potential values. *)
Theorem builtinUglyObjectFlatMerge_order_independent
    (call_ : evalCallable -> list potentialValue -> result value)
    (range1 range2 :
       valueSimpleObjectFieldMap -> list (string * valueSimpleObjectField))
    objarrp elems objs st :
  (forall m, range1 m ≡ₚ map_to_list m) ->
  (forall m, range2 m ≡ₚ map_to_list m) ->
  getValue call_ objarrp = Ok (valueArray elems) ->
  Forall2 (fun pv o => getValue call_ pv = Ok (ofSimple o)) elems objs ->
  (forall n, ~ definedTwice objs n) ->
  builtinUglyObjectFlatMerge call_ range1 objarrp st
    = builtinUglyObjectFlatMerge call_ range2 objarrp st.
Proof.
  intros Hperm1 Hperm2 Harr Hall Hnot.
  destruct (builtinUglyObjectFlatMerge_run call_ range1 Hperm1
              objarrp elems objs st Harr Hall Hnot) as (m1 & -> & Hm1).
  destruct (builtinUglyObjectFlatMerge_run call_ range2 Hperm2
              objarrp elems objs st Harr Hall Hnot) as (m2 & -> & Hm2).
  assert (m1 = m2) as ->; [|reflexivity].
  apply map_eq. intros n. apply option_eq. intros f.
  rewrite Hm1, Hm2. reflexivity.
Qed.

(** ** The free variables the analyzer stores *)

(** The free variables of a tree: the identifiers of its [Var] nodes that
    no enclosing function parameter or local variable of the tree binds. *)
Fixpoint freeVarsOf (a : Node) : IdentifierSet :=
  match a with
  | Apply target positional named =>
      freeVarsOf target ∪ ⋃ (map freeVarsOf positional)
      ∪ ⋃ (map (fun arg => freeVarsOf arg.2) named)
  | Array elements => ⋃ (map freeVarsOf elements)
  | Binary lhs _ rhs => freeVarsOf lhs ∪ freeVarsOf rhs
  | Conditional cond branchTrue branchFalse =>
      freeVarsOf cond ∪ freeVarsOf branchTrue ∪ freeVarsOf branchFalse
  | DesugaredObject asserts fields =>
      ⋃ (map (fun fld =>
                match fld with
                | mkDesugaredObjectField _ fname fbody _ =>
                    freeVarsOf fname ∪ freeVarsOf fbody
                end) fields)
      ∪ ⋃ (map freeVarsOf asserts)
  | Error expr => freeVarsOf expr
  | Function required optional body =>
      (⋃ (map (fun param => freeVarsOf param.2) optional) ∪ freeVarsOf body)
      ∖ list_to_set (required ++ map fst optional)
  | InSuper index => freeVarsOf index
  | SuperIndex index => freeVarsOf index
  | Index target index => freeVarsOf target ∪ freeVarsOf index
  | Local binds body =>
      (⋃ (map (fun bind_ => freeVarsOf bind_.2) binds) ∪ freeVarsOf body)
      ∖ list_to_set (map fst binds)
  | Unary _ expr => freeVarsOf expr
  | Var id => {[id]}
  | _ => ∅
  end.

(** The outcome [r] of a visit where [vars] are in scope, against the free
    variables [F] of what was visited: a nil error comes with exactly [F],
    all of it in scope; an error is a static error, about [self] or [super]
    only outside an object, or else about a variable of [F] that is not in
    scope. *)
Definition sound (r : result IdentifierSet) (F vars : IdentifierSet)
    (inObject : bool) : Prop :=
  (forall freeVars, r = Ok freeVars -> freeVars = F /\ freeVars ⊆ vars)
  /\ (forall e, r = Err e ->
        (inObject = false
         /\ (e = StaticError "Can't use super outside of an object."
             \/ e = StaticError "Can't use self outside of an object."))
        \/ exists id, e = StaticError ("Unknown variable: " +:+ id)
                      /\ id ∈ F /\ id ∉ vars).

Lemma sound_start vars inObject : sound (Ok ∅) ∅ vars inObject.
Proof.
  split; [|discriminate]. intros fv [= <-]. split; [reflexivity|].
  apply empty_subseteq.
Qed.

Lemma sound_eq r F F' vars inObject :
  sound r F vars inObject -> F = F' -> sound r F' vars inObject.
Proof. intros H <-. exact H. Qed.

Lemma sound_inObject r F vars inObject :
  sound r F vars true -> sound r F vars inObject.
Proof.
  intros [HOk HErr]. split; [exact HOk|]. intros e He.
  destruct (HErr e He) as [[? _]|?]; [discriminate | auto].
Qed.

Lemma visitNext_sound r s F1 F2 vars inObject :
  sound s F1 vars inObject -> sound r F2 vars inObject ->
  sound (visitNext r s) (F1 ∪ F2) vars inObject.
Proof.
  intros [HsOk HsErr] [HrOk HrErr]. split.
  - intros fv Hfv. destruct s as [fv1| |]; try discriminate.
    destruct r as [fv2| |]; try discriminate. injection Hfv as <-.
    destruct (HsOk _ eq_refl) as [-> Hs], (HrOk _ eq_refl) as [-> Hr].
    split; [reflexivity|]. apply union_least; assumption.
  - intros e He. destruct s as [fv1|e1|]; try discriminate.
    + destruct r as [fv2|e2|]; try discriminate. injection He as <-.
      destruct (HrErr _ eq_refl) as [?|(id & ? & Hid & ?)]; [auto|].
      right. exists id. split; [assumption|]. split; [|assumption].
      apply elem_of_union. auto.
    + injection He as <-.
      destruct (HsErr _ eq_refl) as [?|(id & ? & Hid & ?)]; [auto|].
      right. exists id. split; [assumption|]. split; [|assumption].
      apply elem_of_union. auto.
Qed.

Lemma removeAll_sound ids s F vars inObject :
  sound s F (list_to_set ids ∪ vars) inObject ->
  sound (removeAll ids s) (F ∖ list_to_set ids) vars inObject.
Proof.
  intros [HOk HErr]. split.
  - intros fv Hfv. destruct s as [fv1| |]; try discriminate.
    injection Hfv as <-. destruct (HOk _ eq_refl) as [-> Hsub].
    split; [reflexivity|]. intros id Hid.
    apply elem_of_difference in Hid as [Hid Hnot].
    apply Hsub, elem_of_union in Hid as [?|?]; [contradiction|assumption].
  - intros e He. destruct s as [|e1|]; try discriminate. injection He as <-.
    destruct (HErr _ eq_refl) as [?|(id & ? & Hid & Hnot)]; [auto|].
    right. exists id. split; [assumption|].
    rewrite elem_of_difference, not_elem_of_union in *. tauto.
Qed.

Lemma fold_sound {A} (step : analysisState -> A -> analysisState)
    (G : A -> IdentifierSet) (l : list A) s F0 vars inObject :
  Forall (fun x => forall s F, sound s F vars inObject ->
                               sound (step s x) (F ∪ G x) vars inObject) l ->
  sound s F0 vars inObject ->
  sound (fold_left step l s) (F0 ∪ ⋃ (map G l)) vars inObject.
Proof.
  intros Hall. revert s F0.
  induction Hall as [|x l Hx Hall IH]; intros s F0 Hs; simpl.
  - apply (sound_eq _ _ _ _ _ Hs). rewrite (right_id_L ∅ (∪)). reflexivity.
  - apply (sound_eq _ _ _ _ _ (IH _ _ (Hx _ _ Hs))).
    rewrite (assoc_L (∪)). reflexivity.
Qed.

Lemma visit_children_sound {A} (get : A -> Node) (l : list A)
    inObject vars s F0 :
  Forall (fun x => forall inObject vars,
            sound (analyzeVisit (get x) inObject vars)
                  (freeVarsOf (get x)) vars inObject) l ->
  sound s F0 vars inObject ->
  sound (fold_left (fun s x => visitNext (analyzeVisit (get x) inObject vars) s)
                   l s)
        (F0 ∪ ⋃ (map (fun x => freeVarsOf (get x)) l)) vars inObject.
Proof.
  intros Hall Hs. apply fold_sound; [|exact Hs].
  apply (Forall_impl _ _ _ Hall). intros x Hx s' F' Hs'.
  apply visitNext_sound; auto.
Qed.

Lemma analyzeVisit_sound (a : Node) :
  forall inObject vars,
    sound (analyzeVisit a inObject vars) (freeVarsOf a) vars inObject.
Proof.
  induction a as
    [target positional named IHtarget IHpositional IHnamed
    |elements IHelements
    |lhs op rhs IHlhs IHrhs
    |cond branchTrue branchFalse IHcond IHtrue IHfalse
    |asserts fields IHasserts IHfields
    |expr IHexpr
    |required optional body IHoptional IHbody
    |file|file
    |index IHindex|index IHindex
    |target index IHtarget IHindex
    |binds body IHbinds IHbody
    |b| |x original|str| |op expr IHexpr|id|ty] using Node_nested_ind;
    intros inObject vars; simpl analyzeVisit; simpl freeVarsOf.
  - pose proof (visitNext_sound _ _ _ _ _ _ (sound_start vars inObject)
                  (IHtarget inObject vars)) as H1.
    pose proof (visit_children_sound (fun x => x) positional inObject vars
                  _ _ IHpositional H1) as H2.
    pose proof (visit_children_sound snd named inObject vars
                  _ _ IHnamed H2) as H3.
    apply (sound_eq _ _ _ _ _ H3). rewrite (left_id_L ∅ (∪)). reflexivity.
  - pose proof (visit_children_sound (fun x => x) elements inObject vars
                  _ _ IHelements (sound_start vars inObject)) as H1.
    apply (sound_eq _ _ _ _ _ H1). rewrite (left_id_L ∅ (∪)). reflexivity.
  - pose proof (visitNext_sound _ _ _ _ _ _
                  (visitNext_sound _ _ _ _ _ _ (sound_start vars inObject)
                     (IHlhs inObject vars))
                  (IHrhs inObject vars)) as H1.
    apply (sound_eq _ _ _ _ _ H1). rewrite (left_id_L ∅ (∪)). reflexivity.
  - pose proof (visitNext_sound _ _ _ _ _ _
                  (visitNext_sound _ _ _ _ _ _
                     (visitNext_sound _ _ _ _ _ _ (sound_start vars inObject)
                        (IHcond inObject vars))
                     (IHtrue inObject vars))
                  (IHfalse inObject vars)) as H1.
    apply (sound_eq _ _ _ _ _ H1). rewrite (left_id_L ∅ (∪)). reflexivity.
  - assert (H1 : sound
      (fold_left (fun s fld =>
                    match fld with
                    | mkDesugaredObjectField _ fname fbody _ =>
                        visitNext (analyzeVisit fbody true vars)
                          (visitNext (analyzeVisit fname inObject vars) s)
                    end) fields (Ok ∅))
      (∅ ∪ ⋃ (map (fun fld =>
                     match fld with
                     | mkDesugaredObjectField _ fname fbody _ =>
                         freeVarsOf fname ∪ freeVarsOf fbody
                     end) fields)) vars inObject).
    { apply fold_sound; [|apply sound_start].
      apply (Forall_impl _ _ _ IHfields).
      intros [hd fname fbody ps] [IHname IHbody] s F Hs.
      pose proof (visitNext_sound _ _ _ _ _ _
                    (visitNext_sound _ _ _ _ _ _ Hs (IHname inObject vars))
                    (sound_inObject _ _ _ inObject (IHbody true vars)))
        as Hstep.
      apply (sound_eq _ _ _ _ _ Hstep). rewrite (assoc_L (∪)). reflexivity. }
    assert (H2 : sound
      (fold_left (fun s assert => visitNext (analyzeVisit assert true vars) s)
                 asserts
                 (fold_left (fun s fld =>
                    match fld with
                    | mkDesugaredObjectField _ fname fbody _ =>
                        visitNext (analyzeVisit fbody true vars)
                          (visitNext (analyzeVisit fname inObject vars) s)
                    end) fields (Ok ∅)))
      ((∅ ∪ ⋃ (map (fun fld =>
                      match fld with
                      | mkDesugaredObjectField _ fname fbody _ =>
                          freeVarsOf fname ∪ freeVarsOf fbody
                      end) fields))
       ∪ ⋃ (map freeVarsOf asserts)) vars inObject).
    { apply fold_sound; [|exact H1].
      apply (Forall_impl _ _ _ IHasserts). intros x Hx s F Hs.
      apply visitNext_sound; [exact Hs|].
      apply sound_inObject, Hx. }
    apply (sound_eq _ _ _ _ _ H2). rewrite (left_id_L ∅ (∪)). reflexivity.
  - pose proof (visitNext_sound _ _ _ _ _ _ (sound_start vars inObject)
                  (IHexpr inObject vars)) as H1.
    apply (sound_eq _ _ _ _ _ H1). rewrite (left_id_L ∅ (∪)). reflexivity.
  - set (ids := required ++ map fst optional).
    pose proof (visit_children_sound snd optional inObject
                  (list_to_set ids ∪ vars) _ _ IHoptional
                  (sound_start _ inObject)) as H1.
    pose proof (visitNext_sound _ _ _ _ _ _ H1
                  (IHbody inObject (list_to_set ids ∪ vars))) as H2.
    apply removeAll_sound in H2.
    apply (sound_eq _ _ _ _ _ H2). rewrite (left_id_L ∅ (∪)). reflexivity.
  - apply sound_start.
  - apply sound_start.
  - destruct inObject.
    + pose proof (visitNext_sound _ _ _ _ _ _ (sound_start vars true)
                    (IHindex true vars)) as H1.
      apply (sound_eq _ _ _ _ _ H1). rewrite (left_id_L ∅ (∪)). reflexivity.
    + split; [discriminate|]. intros e [= <-]. auto.
  - destruct inObject.
    + pose proof (visitNext_sound _ _ _ _ _ _ (sound_start vars true)
                    (IHindex true vars)) as H1.
      apply (sound_eq _ _ _ _ _ H1). rewrite (left_id_L ∅ (∪)). reflexivity.
    + split; [discriminate|]. intros e [= <-]. auto.
  - pose proof (visitNext_sound _ _ _ _ _ _
                  (visitNext_sound _ _ _ _ _ _ (sound_start vars inObject)
                     (IHtarget inObject vars))
                  (IHindex inObject vars)) as H1.
    apply (sound_eq _ _ _ _ _ H1). rewrite (left_id_L ∅ (∪)). reflexivity.
  - set (ids := map fst binds).
    pose proof (visit_children_sound snd binds inObject
                  (list_to_set ids ∪ vars) _ _ IHbinds
                  (sound_start _ inObject)) as H1.
    pose proof (visitNext_sound _ _ _ _ _ _ H1
                  (IHbody inObject (list_to_set ids ∪ vars))) as H2.
    apply removeAll_sound in H2.
    apply (sound_eq _ _ _ _ _ H2). rewrite (left_id_L ∅ (∪)). reflexivity.
  - apply sound_start.
  - apply sound_start.
  - apply sound_start.
  - apply sound_start.
  - destruct inObject; [apply sound_start|].
    split; [discriminate|]. intros e [= <-]. auto.
  - pose proof (visitNext_sound _ _ _ _ _ _ (sound_start vars inObject)
                  (IHexpr inObject vars)) as H1.
    apply (sound_eq _ _ _ _ _ H1). rewrite (left_id_L ∅ (∪)). reflexivity.
  - case_decide as Hid.
    + split; [|discriminate]. intros fv [= <-].
      rewrite (right_id_L ∅ (∪)). split; [reflexivity|].
      apply singleton_subseteq_l. exact Hid.
    + split; [discriminate|]. intros e [= <-]. right. exists id.
      split; [reflexivity|]. split; [apply elem_of_singleton; reflexivity|].
      exact Hid.
  - split; discriminate.
Qed.

(** X17: when the analysis of a tree succeeds, the free variables it stores
    in the root are exactly the free variables of the tree, and each of
    them is in the scope the analysis started with. *)
Theorem analyzeVisit_freeVariables (a : Node) inObject vars freeVars :
  analyzeVisit a inObject vars = Ok freeVars ->
  freeVars = freeVarsOf a /\ freeVars ⊆ vars.
Proof. intros H. exact (proj1 (analyzeVisit_sound a inObject vars) _ H). Qed.

(** X18: the only errors of the analysis are its three static errors.
    [Unknown variable] names a free variable of the tree that is not in
    the scope the analysis started with; and an analysis started inside an
    object reports nothing else. *)
Theorem analyzeVisit_errors (a : Node) inObject vars e :
  analyzeVisit a inObject vars = Err e ->
  (inObject = false
   /\ (e = StaticError "Can't use super outside of an object."
       \/ e = StaticError "Can't use self outside of an object."))
  \/ exists id, e = StaticError ("Unknown variable: " +:+ id)
                /\ id ∈ freeVarsOf a /\ id ∉ vars.
Proof. intros H. exact (proj2 (analyzeVisit_sound a inObject vars) _ H). Qed.

(** ** The analysis in a larger scope *)

Definition weakens (r r' : result IdentifierSet) : Prop :=
  forall freeVars, r = Ok freeVars -> r' = Ok freeVars.

Lemma weakens_refl r : weakens r r.
Proof. intros fv H. exact H. Qed.

Lemma visitNext_weakens r r' s s' :
  weakens s s' -> weakens r r' ->
  weakens (visitNext r s) (visitNext r' s').
Proof.
  intros Hs Hr fv Hfv. destruct s as [fv1| |]; try discriminate.
  destruct r as [fv2| |]; try discriminate.
  rewrite (Hs _ eq_refl), (Hr _ eq_refl). exact Hfv.
Qed.

Lemma removeAll_weakens ids s s' :
  weakens s s' -> weakens (removeAll ids s) (removeAll ids s').
Proof.
  intros Hs fv Hfv. destruct s as [fv1| |]; try discriminate.
  rewrite (Hs _ eq_refl). exact Hfv.
Qed.

Lemma fold_weakens {A} (step step' : analysisState -> A -> analysisState)
    (l : list A) s s' :
  Forall (fun x => forall s s', weakens s s' ->
                                weakens (step s x) (step' s' x)) l ->
  weakens s s' ->
  weakens (fold_left step l s) (fold_left step' l s').
Proof.
  intros Hall. revert s s'.
  induction Hall as [|x l Hx Hall IH]; intros s s' Hs; simpl; auto.
Qed.

Lemma analyzeVisit_weakens (a : Node) :
  forall inObject vars inObject' vars',
    vars ⊆ vars' -> (inObject = true -> inObject' = true) ->
    weakens (analyzeVisit a inObject vars) (analyzeVisit a inObject' vars').
Proof.
  induction a as
    [target positional named IHtarget IHpositional IHnamed
    |elements IHelements
    |lhs op rhs IHlhs IHrhs
    |cond branchTrue branchFalse IHcond IHtrue IHfalse
    |asserts fields IHasserts IHfields
    |expr IHexpr
    |required optional body IHoptional IHbody
    |file|file
    |index IHindex|index IHindex
    |target index IHtarget IHindex
    |binds body IHbinds IHbody
    |b| |x original|str| |op expr IHexpr|id|ty] using Node_nested_ind;
    intros inObject vars inObject' vars' Hvars Hin; cbn [analyzeVisit].
  - apply fold_weakens.
    { apply (Forall_impl _ _ _ IHnamed). intros x Hx s s' Hs.
      apply visitNext_weakens; auto. }
    apply fold_weakens.
    { apply (Forall_impl _ _ _ IHpositional). intros x Hx s s' Hs.
      apply visitNext_weakens; auto. }
    apply visitNext_weakens; [apply weakens_refl | auto].
  - apply fold_weakens; [|apply weakens_refl].
    apply (Forall_impl _ _ _ IHelements). intros x Hx s s' Hs.
    apply visitNext_weakens; auto.
  - repeat apply visitNext_weakens; auto using weakens_refl.
  - repeat apply visitNext_weakens; auto using weakens_refl.
  - apply fold_weakens.
    { apply (Forall_impl _ _ _ IHasserts). intros x Hx s s' Hs.
      apply visitNext_weakens; auto. }
    apply fold_weakens; [|apply weakens_refl].
    apply (Forall_impl _ _ _ IHfields).
    intros [hd fname fbody ps] [IHname IHbody] s s' Hs.
    repeat apply visitNext_weakens; auto.
  - repeat apply visitNext_weakens; auto using weakens_refl.
  - assert (Hnew : list_to_set (required ++ map fst optional) ∪ vars
                   ⊆ list_to_set (required ++ map fst optional) ∪ vars')
      by (apply union_mono_l; exact Hvars).
    apply removeAll_weakens, visitNext_weakens; [|auto].
    apply fold_weakens; [|apply weakens_refl].
    apply (Forall_impl _ _ _ IHoptional). intros x Hx s s' Hs.
    apply visitNext_weakens; auto.
  - apply weakens_refl.
  - apply weakens_refl.
  - destruct inObject; [|intros fv; discriminate].
    rewrite (Hin eq_refl).
    repeat apply visitNext_weakens; auto using weakens_refl.
  - destruct inObject; [|intros fv; discriminate].
    rewrite (Hin eq_refl).
    repeat apply visitNext_weakens; auto using weakens_refl.
  - repeat apply visitNext_weakens; auto using weakens_refl.
  - assert (Hnew : list_to_set (map fst binds) ∪ vars
                   ⊆ list_to_set (map fst binds) ∪ vars')
      by (apply union_mono_l; exact Hvars).
    apply removeAll_weakens, visitNext_weakens; [|auto].
    apply fold_weakens; [|apply weakens_refl].
    apply (Forall_impl _ _ _ IHbinds). intros x Hx s s' Hs.
    apply visitNext_weakens; auto.
  - apply weakens_refl.
  - apply weakens_refl.
  - apply weakens_refl.
  - apply weakens_refl.
  - destruct inObject; [|intros fv; discriminate].
    rewrite (Hin eq_refl). apply weakens_refl.
  - repeat apply visitNext_weakens; auto using weakens_refl.
  - intros fv. case_decide as Hid; [|discriminate].
    rewrite decide_True by (apply Hvars; exact Hid). auto.
  - intros fv; discriminate.
Qed.

(** X19: a tree that passes the analysis in a scope passes it, with the
    same free variables, in every larger scope, and inside an object as
    well as outside. *)
Theorem analyzeVisit_weakening (a : Node) inObject vars inObject' vars'
    freeVars :
  analyzeVisit a inObject vars = Ok freeVars ->
  vars ⊆ vars' -> (inObject = true -> inObject' = true) ->
  analyzeVisit a inObject' vars' = Ok freeVars.
Proof.
  intros H Hvars Hin.
  exact (analyzeVisit_weakens a inObject vars inObject' vars' Hvars Hin _ H).
Qed.

(** ** Operators and their strings (ast.go) *)

(** The value [iota] gives each operator constant. *)
Definition BinaryOp_iota (op : BinaryOp) : Z :=
  match op with
  | BopMult => 0 | BopDiv => 1 | BopPercent => 2
  | BopPlus => 3 | BopMinus => 4
  | BopShiftL => 5 | BopShiftR => 6
  | BopGreater => 7 | BopGreaterEq => 8 | BopLess => 9 | BopLessEq => 10
  | BopIn => 11
  | BopManifestEqual => 12 | BopManifestUnequal => 13
  | BopBitwiseAnd => 14 | BopBitwiseXor => 15 | BopBitwiseOr => 16
  | BopAnd => 17 | BopOr => 18
  end.

Definition bopStrings : list string :=
  ["*"; "/"; "%"; "+"; "-"; "<<"; ">>"; ">"; ">="; "<"; "<="; "in";
   "=="; "!="; "&"; "^"; "|"; "&&"; "||"].

Definition BopMap : gmap string BinaryOp :=
  list_to_map
    [("*", BopMult); ("/", BopDiv); ("%", BopPercent);
     ("+", BopPlus); ("-", BopMinus);
     ("<<", BopShiftL); (">>", BopShiftR);
     (">", BopGreater); (">=", BopGreaterEq); ("<", BopLess);
     ("<=", BopLessEq); ("in", BopIn);
     ("==", BopManifestEqual); ("!=", BopManifestUnequal);
     ("&", BopBitwiseAnd); ("^", BopBitwiseXor); ("|", BopBitwiseOr);
     ("&&", BopAnd); ("||", BopOr)].

(** [b.String()] on the integer [b]. *)
Definition BinaryOp_String (b : Z) : result string :=
  if (b <? 0)%Z || (Z.of_nat (length bopStrings) <=? b)%Z
  then Panic ("INTERNAL ERROR: Unrecognised binary operator: " +:+ pretty b)
  else match bopStrings !! Z.to_nat b with
       | Some str => Ok str
       | None => Panic "index out of range"
       end.

Definition UnaryOp_iota (op : UnaryOp) : Z :=
  match op with
  | UopNot => 0 | UopBitwiseNot => 1 | UopPlus => 2 | UopMinus => 3
  end.

Definition uopStrings : list string := ["!"; "~"; "+"; "-"].

Definition UopMap : gmap string UnaryOp :=
  list_to_map
    [("!", UopNot); ("~", UopBitwiseNot); ("+", UopPlus); ("-", UopMinus)].

Definition UnaryOp_String (u : Z) : result string :=
  if (u <? 0)%Z || (Z.of_nat (length uopStrings) <=? u)%Z
  then Panic ("INTERNAL ERROR: Unrecognised unary operator: " +:+ pretty u)
  else match uopStrings !! Z.to_nat u with
       | Some str => Ok str
       | None => Panic "index out of range"
       end.

(** X20: the strings of the operators and the maps from strings to
    operators are inverse to each other: [String()] of a binary or unary
    operator is the one key that [BopMap], or [UopMap], sends to that
    operator.  [String()] panics on an integer that is no operator. *)
Theorem operator_strings_round_trip :
  (forall s op, BopMap !! s = Some op
                <-> BinaryOp_String (BinaryOp_iota op) = Ok s)
  /\ (forall s op, UopMap !! s = Some op
                   <-> UnaryOp_String (UnaryOp_iota op) = Ok s)
  /\ (forall b, (b < 0 \/ 19 <= b)%Z ->
        exists msg, BinaryOp_String b = Panic msg)
  /\ (forall u, (u < 0 \/ 4 <= u)%Z ->
        exists msg, UnaryOp_String u = Panic msg).
Proof.
  split; [|split; [|split]].
  - intros s op. split.
    + intros H. apply elem_of_list_to_map_2 in H.
      repeat (apply elem_of_cons in H as [[= -> ->]|H]; [reflexivity|]).
      inversion H.
    + destruct op; intros [= <-]; reflexivity.
  - intros s op. split.
    + intros H. apply elem_of_list_to_map_2 in H.
      repeat (apply elem_of_cons in H as [[= -> ->]|H]; [reflexivity|]).
      inversion H.
    + destruct op; intros [= <-]; reflexivity.
  - intros b Hb. unfold BinaryOp_String.
    replace ((b <? 0)%Z || (Z.of_nat (length bopStrings) <=? b)%Z)
      with true; [eauto|].
    symmetry. apply orb_true_iff. simpl length.
    rewrite Z.ltb_lt, Z.leb_le. lia.
  - intros u Hu. unfold UnaryOp_String.
    replace ((u <? 0)%Z || (Z.of_nat (length uopStrings) <=? u)%Z)
      with true; [eauto|].
    symmetry. apply orb_true_iff. simpl length.
    rewrite Z.ltb_lt, Z.leb_le. lia.
Qed.

(** X21: every binary operator is covered: either the desugared-operator
    map names a stdlib function for it, and then its slot of the operator
    table is nil or the placeholder; or its slot holds a builtin with the
    parameters [x] and [y] whose name is [operator] followed by the string
    of the operator, but for [<], whose builtin is named [operator<,].
    Every unary operator has a builtin with the parameter [x] whose name
    starts with [operator] followed by the string of the operator. *)
Theorem operators_covered
    (call_ : evalCallable -> list potentialValue -> result value)
    (manifest : value -> result string) :
  (forall op,
     (exists id, desugaredBop op = Some id
        /\ (bopBuiltins call_ manifest op = None
            \/ bopBuiltins call_ manifest op = Some todo))
     \/ (desugaredBop op = None
         /\ exists b str,
              bopBuiltins call_ manifest op = Some b
              /\ parameters b = ["x"; "y"]
              /\ BinaryOp_String (BinaryOp_iota op) = Ok str
              /\ name b = match op with
                          | BopLess => "operator<,"
                          | _ => "operator" +:+ str
                          end))
  /\ (forall op,
        exists str suffix,
          UnaryOp_String (UnaryOp_iota op) = Ok str
          /\ unaryName (uopBuiltins call_ op) = "operator" +:+ str +:+ suffix
          /\ unaryParameters (uopBuiltins call_ op) = ["x"]).
Proof.
  split.
  - intros op. destruct op;
      try (left; eexists; split; [reflexivity|]; auto; fail);
      right; (split; [reflexivity|]); eexists _, _;
      (split; [reflexivity|]); (split; [reflexivity|]);
      (split; [reflexivity|]); reflexivity.
  - intros op. destruct op.
    + exists "!", "". repeat split.
    + exists "~", "". repeat split.
    + exists "+", " (unary)". repeat split.
    + exists "-", " (unary)". repeat split.
Qed.

(** ** More runs on concrete inputs *)

(** An interpreter whose every function answers [true] on [null], doubles
    an array, fails on a number and answers [false] on anything else. *)
Definition callToy (f : evalCallable) (args : list potentialValue)
    : result value :=
  match args with
  | [readyValue valueNull] => Ok (valueBoolean true)
  | [readyValue (valueArray l)] => Ok (valueArray (l ++ l))
  | [readyValue (valueNumber _)] => Err (RuntimeError "boom")
  | _ => Ok (valueBoolean false)
  end.

Definition keepLeft (x y : float64) : float64 := x.

Definition nullp : potentialValue := readyValue valueNull.
Definition truep : potentialValue := readyValue (valueBoolean true).
Definition strp (s : string) : potentialValue := readyValue (valueString s).
Definition funp : potentialValue := readyValue (valueFunction (builtin "f")).

(** [1 / 2] is a finite number. *)
Lemma checked_builtins_finite_witness :
  (builtinDiv noCalls (number 1) (number 2) []).1
    = Ok (valueNumber (F64.div (F64.of_Z 1) (F64.of_Z 2)))
  /\ exists x, valueNumber (F64.div (F64.of_Z 1) (F64.of_Z 2)) = valueNumber x
               /\ F64.is_finite x = true.
Proof.
  split; [reflexivity|].
  apply (checked_builtins_finite noCalls keepLeft keepLeft
           (number 1) (number 2) F64.neg Z.land []).
  left. reflexivity.
Defined.

(** The square root of [-4]. *)
Lemma builtinSqrt_negative_witness :
  let xp := readyValue (valueNumber (S754_finite true 4503599627370496 (-50))) in
  getValue noCalls xp
    = Ok (valueNumber (S754_finite true 4503599627370496 (-50)))
  /\ (builtinSqrt noCalls xp []).1 = Err (RuntimeError "Not a number").
Proof.
  split; [reflexivity|].
  apply (builtinSqrt_negative noCalls
           (readyValue (valueNumber (S754_finite true 4503599627370496 (-50))))
           4503599627370496 (-50) []).
  reflexivity.
Defined.

(** [1 <= 2]. *)
Lemma comparisons_coherent_witness :
  getValue noCalls (number 1) = Ok (valueNumber (F64.of_Z 1))
  /\ getValue noCalls (number 2) = Ok (valueNumber (F64.of_Z 2))
  /\ (builtinLess noCalls (number 1) (number 2) []).1
     = Ok (valueBoolean (F64.ltb (F64.of_Z 1) (F64.of_Z 2))).
Proof.
  split; [reflexivity|]. split; [reflexivity|].
  apply (proj1 (comparisons_coherent noCalls (number 1) (number 2)
                  (F64.of_Z 1) (F64.of_Z 2) [] eq_refl eq_refl)).
Defined.

(** [null] against [1], both ways round. *)
Lemma primitiveEquals_symmetric_witness :
  getValue noCalls nullp = Ok valueNull
  /\ getValue noCalls (number 1) = Ok (valueNumber (F64.of_Z 1))
  /\ (primitiveEquals noCalls nullp (number 1) []).1
     = (primitiveEquals noCalls (number 1) nullp []).1.
Proof.
  split; [reflexivity|]. split; [reflexivity|].
  apply (primitiveEquals_symmetric noCalls nullp (number 1)
           valueNull (valueNumber (F64.of_Z 1)) [] []); reflexivity.
Defined.

(** [toString(toString(null))]. *)
Lemma builtinToString_idempotent_witness :
  (builtinToString noCalls manifestAtom nullp []).1 = Ok (valueString "null")
  /\ (builtinToString noCalls manifestAtom (strp "null") []).1
     = Ok (valueString "null").
Proof.
  split; [reflexivity|].
  apply (builtinToString_idempotent noCalls manifestAtom nullp []
           (valueString "null") []).
  reflexivity.
Defined.

(** [!!true]. *)
Lemma negation_involutive_witness :
  getValue noCalls truep = Ok (valueBoolean true)
  /\ exists v, (builtinNegation noCalls truep []).1 = Ok v
       /\ (builtinNegation noCalls (readyValue v) []).1
          = Ok (valueBoolean true).
Proof.
  split; [reflexivity|].
  apply (proj1 (negation_involutive noCalls truep []) true). reflexivity.
Defined.

(** [("a" + "b") + "c"] and ["a" + ("b" + "c")]. *)
Lemma builtinPlus_associative_witness :
  getValue noCalls (strp "a") = Ok (valueString "a")
  /\ (builtinPlus noCalls manifestAtom (strp "a") (strp "b") []).1
     = Ok (valueString "ab")
  /\ (builtinPlus noCalls manifestAtom (strp "b") (strp "c") []).1
     = Ok (valueString "bc")
  /\ (builtinPlus noCalls manifestAtom (strp "ab") (strp "c") []).1
     = (builtinPlus noCalls manifestAtom (strp "a") (strp "bc") []).1.
Proof.
  split; [reflexivity|]. split; [reflexivity|]. split; [reflexivity|].
  apply (builtinPlus_associative noCalls manifestAtom
           (strp "a") (strp "b") (strp "c")
           (valueString "a") (valueString "b") (valueString "c") []
           (valueString "ab") (valueString "bc"));
    try reflexivity.
  left. exists "a", "b", "c". auto.
Defined.

(** The length of [[null] + [null, true]] is 3, and so is the length of
    ["€" + "ab"], whose first code point takes three bytes. *)
Lemma builtinLength_plus_witness :
  let xp := readyValue (valueArray [nullp]) in
  let yp := readyValue (valueArray [nullp; truep]) in
  (getValue noCalls xp = Ok (valueArray [nullp])
   /\ getValue noCalls yp = Ok (valueArray [nullp; truep])
   /\ (builtinPlus noCalls manifestAtom xp yp []).1
       = Ok (valueArray [nullp; nullp; truep])
   /\ (builtinLength noCalls (fun _ => [])
         (readyValue (valueArray [nullp; nullp; truep])) []).1
      = Ok (valueNumber (F64.of_Z 3)))
  /\ (getValue noCalls (strp "€") = Ok (valueString "€")
      /\ getValue noCalls (strp "ab") = Ok (valueString "ab")
      /\ (builtinPlus noCalls manifestAtom (strp "€") (strp "ab") []).1
          = Ok (valueString "€ab")
      /\ (builtinLength noCalls (fun _ => [])
            (readyValue (valueString "€ab")) []).1
         = Ok (valueNumber (F64.of_Z 3))).
Proof.
  split.
  - split; [reflexivity|]. split; [reflexivity|]. split; [reflexivity|].
    apply (proj1 (builtinLength_plus noCalls manifestAtom (fun _ => [])
                    (readyValue (valueArray [nullp]))
                    (readyValue (valueArray [nullp; truep])) []
                    (valueArray [nullp; nullp; truep]))
                 [nullp] [nullp; truep]); reflexivity.
  - split; [reflexivity|]. split; [reflexivity|]. split; [reflexivity|].
    apply (proj2 (builtinLength_plus noCalls manifestAtom (fun _ => [])
                    (strp "€") (strp "ab") [] (valueString "€ab"))
                 "€" "ab"); reflexivity.
Defined.

(** A string of one code point has length 1, however many bytes write
    it. *)
Example builtinLength_code_points :
  runesToString [8364%N] = "€"
  /\ String.length "€" = 3%nat
  /\ (builtinLength noCalls (fun _ => []) (strp "€") []).1
     = Ok (valueNumber (F64.of_Z 1)).
Proof. repeat split; vm_compute; reflexivity. Qed.

(** [makeArray(2, f)] forces [2] and [f]. *)
Lemma builtinMakeArray_lazy_witness :
  getValue noCalls (number 2) = Ok (valueNumber (F64.of_Z 2))
  /\ getValue noCalls funp = Ok (valueFunction (builtin "f"))
  /\ (builtinMakeArray noCalls (number 2) funp []).2 = [number 2; funp].
Proof.
  split; [reflexivity|]. split; [reflexivity|].
  apply (proj1 (builtinMakeArray_lazy noCalls (number 2) funp [])
               (F64.of_Z 2) (builtin "f")); reflexivity.
Defined.

(** [extVar("v")] where [v] is bound to [1] and [w] is not bound. *)
Lemma builtinExtVar_lookup_witness :
  let vars := {["v" := number 1]} : gmap Identifier potentialValue in
  getValue noCalls (strp "w") = Ok (valueString "w")
  /\ vars !! "w" = None
  /\ builtinExtVar noCalls vars (strp "w") []
     = (Err (RuntimeError "Undefined external variable: w"), [strp "w"]).
Proof.
  split; [reflexivity|]. split; [reflexivity|].
  apply (proj1 (builtinExtVar_lookup noCalls {["v" := number 1]}
                  (strp "w") "w" [] eq_refl)).
  reflexivity.
Defined.

(** [filter(f, [null, true])] keeps [null]. *)
Lemma builtinFilter_keeps_witness :
  let arrp := readyValue (valueArray [nullp; truep]) in
  getValue callToy arrp = Ok (valueArray [nullp; truep])
  /\ getValue callToy funp = Ok (valueFunction (builtin "f"))
  /\ builtinFilter callToy funp arrp []
     = (Ok (valueArray [nullp]),
        [arrp; funp; callThunk (builtin "f") [nullp];
         callThunk (builtin "f") [truep]]).
Proof.
  split; [reflexivity|]. split; [reflexivity|].
  apply (builtinFilter_keeps callToy funp
           (readyValue (valueArray [nullp; truep])) (builtin "f")
           [nullp; truep] []); try reflexivity.
  repeat constructor; eexists; reflexivity.
Defined.

(** [filter(f, [null, 1, null])] fails at [1]. *)
Lemma builtinFilter_stops_witness :
  let arrp := readyValue (valueArray ([nullp] ++ number 1 :: [nullp])) in
  getValue callToy arrp = Ok (valueArray ([nullp] ++ number 1 :: [nullp]))
  /\ (builtinFilter callToy funp arrp []).1 = Err (RuntimeError "boom")
  /\ (builtinFilter callToy funp arrp []).2
     = [arrp; funp; callThunk (builtin "f") [nullp];
        callThunk (builtin "f") [number 1]].
Proof.
  split; [reflexivity|].
  apply (builtinFilter_stops callToy funp
           (readyValue (valueArray ([nullp] ++ number 1 :: [nullp])))
           (builtin "f") [nullp] (number 1) [nullp] []);
    try reflexivity.
  - repeat constructor; eexists; reflexivity.
  - intros b. discriminate.
Defined.

(** [flatMap(f, [[null], [true]])]. *)
Lemma builtinFlatMap_concat_witness :
  let a1 := readyValue (valueArray [nullp]) in
  let a2 := readyValue (valueArray [truep]) in
  let arrp := readyValue (valueArray [a1; a2]) in
  getValue callToy arrp = Ok (valueArray [a1; a2])
  /\ (builtinFlatMap callToy funp arrp []).1
     = Ok (valueArray [nullp; nullp; truep; truep]).
Proof.
  split; [reflexivity|].
  apply (f_equal fst
           (builtinFlatMap_concat callToy funp
              (readyValue (valueArray [readyValue (valueArray [nullp]);
                                       readyValue (valueArray [truep])]))
              (builtin "f")
              [readyValue (valueArray [nullp]);
               readyValue (valueArray [truep])] []
              eq_refl eq_refl
              ltac:(repeat constructor; eexists; reflexivity))).
Defined.

(** [filter(error "f", error "a")] fails with [a]. *)
Lemma filter_flatMap_array_first_witness :
  let arrp := thunk "arr" (Err (RuntimeError "a")) in
  let funcp := thunk "func" (Err (RuntimeError "f")) in
  getValue noCalls arrp = Err (RuntimeError "a")
  /\ builtinFilter noCalls funcp arrp [] = (Err (RuntimeError "a"), [arrp])
  /\ builtinFlatMap noCalls funcp arrp [] = (Err (RuntimeError "a"), [arrp]).
Proof.
  split; [reflexivity|].
  apply (proj1 (filter_flatMap_array_first noCalls
                  (thunk "func" (Err (RuntimeError "f")))
                  (thunk "arr" (Err (RuntimeError "a"))) [])
               (RuntimeError "a")).
  reflexivity.
Defined.

(** The merge of [{ a: null }] and [{ b:: null }] forces the array and its
    two elements. *)
Lemma builtinUglyObjectFlatMerge_forces_witness :
  let elems := [readyValue (ofSimple objA); readyValue (ofSimple objB)] in
  let objarrp := readyValue (valueArray elems) in
  getValue noCalls objarrp = Ok (valueArray elems)
  /\ Forall2 (fun pv o => getValue noCalls pv = Ok (ofSimple o))
             elems [objA; objB]
  /\ (forall n, ~ definedTwice [objA; objB] n)
  /\ (builtinUglyObjectFlatMerge noCalls map_to_list objarrp []).2
     = objarrp :: elems.
Proof.
  assert (Hnot : forall n, ~ definedTwice [objA; objB] n).
  { intros n (i & j & oi & oj & Hij & Hi & Hj & [fi Hfi] & [fj Hfj]).
    destruct i as [|[|i]], j as [|[|j]]; try lia; try discriminate.
    injection Hi as <-. injection Hj as <-. simpl in Hfi, Hfj.
    apply lookup_singleton_Some in Hfi as [<- _].
    apply lookup_singleton_Some in Hfj as [[=] _]. }
  split; [reflexivity|]. split; [repeat constructor|].
  split; [exact Hnot|].
  apply (builtinUglyObjectFlatMerge_forces noCalls map_to_list
           (fun m => reflexivity _)
           (readyValue (valueArray [readyValue (ofSimple objA);
                                    readyValue (ofSimple objB)]))
           [readyValue (ofSimple objA); readyValue (ofSimple objB)]
           [objA; objB] []);
    [reflexivity | repeat constructor | exact Hnot].
Defined.

(** The same merge with the field tables ranged over backwards. *)
Lemma builtinUglyObjectFlatMerge_order_independent_witness :
  let elems := [readyValue (ofSimple objA); readyValue (ofSimple objB)] in
  let objarrp := readyValue (valueArray elems) in
  (forall m : valueSimpleObjectFieldMap,
     reverse (map_to_list m) ≡ₚ map_to_list m)
  /\ getValue noCalls objarrp = Ok (valueArray elems)
  /\ builtinUglyObjectFlatMerge noCalls map_to_list objarrp []
     = builtinUglyObjectFlatMerge noCalls
         (fun m => reverse (map_to_list m)) objarrp [].
Proof.
  split; [intros m; apply reverse_Permutation|]. split; [reflexivity|].
  apply (builtinUglyObjectFlatMerge_order_independent noCalls map_to_list
           (fun m => reverse (map_to_list m))
           (readyValue (valueArray [readyValue (ofSimple objA);
                                    readyValue (ofSimple objB)]))
           [readyValue (ofSimple objA); readyValue (ofSimple objB)]
           [objA; objB] []);
    [reflexivity | intros m; apply reverse_Permutation | reflexivity
    | repeat constructor |].
  intros n (i & j & oi & oj & Hij & Hi & Hj & [fi Hfi] & [fj Hfj]).
  destruct i as [|[|i]], j as [|[|j]]; try lia; try discriminate.
  injection Hi as <-. injection Hj as <-. simpl in Hfi, Hfj.
  apply lookup_singleton_Some in Hfi as [<- _].
  apply lookup_singleton_Some in Hfj as [[=] _].
Defined.

(** [local x = null; x] has no free variable. *)
Lemma analyzeVisit_freeVariables_witness :
  let node := Local [("x", LiteralNull)] (Var "x") in
  analyzeVisit node false {["std"]} = Ok ∅
  /\ (∅ : IdentifierSet) = freeVarsOf node
  /\ (∅ : IdentifierSet) ⊆ {["std"]}.
Proof.
  assert (H : analyzeVisit (Local [("x", LiteralNull)] (Var "x")) false
                {["std"]} = Ok ∅) by (vm_compute; reflexivity).
  split; [exact H|].
  exact (analyzeVisit_freeVariables _ false {["std"]} ∅ H).
Defined.

(** The variable [x] where only [std] is in scope. *)
Lemma analyzeVisit_errors_witness :
  analyzeVisit (Var "x") false {["std"]}
    = Err (StaticError "Unknown variable: x")
  /\ ((false = false
       /\ (StaticError "Unknown variable: x"
             = StaticError "Can't use super outside of an object."
           \/ StaticError "Unknown variable: x"
             = StaticError "Can't use self outside of an object."))
      \/ exists id,
           StaticError "Unknown variable: x"
             = StaticError ("Unknown variable: " +:+ id)
           /\ id ∈ freeVarsOf (Var "x") /\ id ∉ ({["std"]} : IdentifierSet)).
Proof.
  assert (H : analyzeVisit (Var "x") false {["std"]}
              = Err (StaticError "Unknown variable: x"))
    by (vm_compute; reflexivity).
  split; [exact H|].
  exact (analyzeVisit_errors (Var "x") false {["std"]} _ H).
Defined.

(** [std] analysed with [x] in scope too, inside an object. *)
Lemma analyzeVisit_weakening_witness :
  analyzeVisit (Var "std") false {["std"]} = Ok {["std"]}
  /\ ({["std"]} : IdentifierSet) ⊆ {["std"; "x"]}
  /\ analyzeVisit (Var "std") true {["std"; "x"]} = Ok {["std"]}.
Proof.
  assert (H : analyzeVisit (Var "std") false {["std"]} = Ok {["std"]})
    by (vm_compute; reflexivity).
  assert (Hsub : ({["std"]} : IdentifierSet) ⊆ {["std"; "x"]})
    by (apply union_subseteq_l).
  split; [exact H|]. split; [exact Hsub|].
  exact (analyzeVisit_weakening (Var "std") false {["std"]} true
           {["std"; "x"]} {["std"]} H Hsub (fun _ => eq_refl)).
Defined.

(** The string of [+] and the operator of ["+"]. *)
Lemma operator_strings_round_trip_witness :
  BopMap !! "+" = Some BopPlus
  /\ BinaryOp_String (BinaryOp_iota BopPlus) = Ok "+".
Proof.
  split; [reflexivity|].
  apply (proj1 (proj1 operator_strings_round_trip "+" BopPlus)).
  reflexivity.
Defined.

(** X22: inside an object, a tree of the node kinds the analyzer has a case
    for passes the analysis exactly when every free variable of the tree
    is in scope. *)
Theorem analyzeVisit_closed (a : Node) vars :
  desugared a = true ->
  (exists freeVars, analyzeVisit a true vars = Ok freeVars)
  <-> freeVarsOf a ⊆ vars.
Proof.
  intros Hd. split.
  - intros [fv Hfv].
    destruct (proj1 (analyzeVisit_sound a true vars) _ Hfv) as [<- Hsub].
    exact Hsub.
  - intros Hsub.
    destruct (analyzeVisit_agrees a Hd true vars)
      as [(fv & Hrun & _)|(msg & Hrun & _)]; [eauto|].
    destruct (proj2 (analyzeVisit_sound a true vars) _ Hrun)
      as [[? _]|(id & _ & Hid & Hnot)]; [discriminate|].
    exfalso. apply Hnot, Hsub, Hid.
Qed.

(** [local x = null; std] with [std] in scope. *)
Lemma analyzeVisit_closed_witness :
  let node := Local [("x", LiteralNull)] (Var "std") in
  desugared node = true
  /\ ((exists freeVars, analyzeVisit node true {["std"]} = Ok freeVars)
      <-> freeVarsOf node ⊆ {["std"]}).
Proof.
  split; [reflexivity|].
  exact (analyzeVisit_closed (Local [("x", LiteralNull)] (Var "std"))
           {["std"]} eq_refl).
Defined.

Lemma SFcompare_refl (x : float64) :
  F64.IsNaN x = false -> SFcompare x x = Some Eq.
Proof.
  destruct x as [s|s| |s m e]; simpl; try discriminate; intros _;
    try (destruct s; reflexivity).
  destruct s; rewrite Z.compare_refl;
    change (Pos.compare_cont Eq m m) with (m ?= m)%positive;
    rewrite Pos.compare_refl; reflexivity.
Qed.

Lemma string_eqb_refl (s : string) : String.eqb s s = true.
Proof. apply String.eqb_eq. reflexivity. Qed.

(** X23: [primitiveEquals] of a value with itself is [true] for null, for
    every boolean, for every string and for every number but a NaN, for
    which it is [false]. *)
Theorem primitiveEquals_reflexive
    (call_ : evalCallable -> list potentialValue -> result value)
    xp x st :
  getValue call_ xp = Ok x ->
  (typename x = "null" \/ typename x = "boolean" \/ typename x = "string"
   \/ (exists n, x = valueNumber n /\ F64.IsNaN n = false) ->
   (primitiveEquals call_ xp xp st).1 = Ok (valueBoolean true))
  /\ (x = valueNumber S754_nan ->
      (primitiveEquals call_ xp xp st).1 = Ok (valueBoolean false)).
Proof.
  intros Hx. unfold primitiveEquals, bind, evaluate. rewrite Hx. simpl.
  split.
  - intros Htype. rewrite string_eqb_refl. simpl.
    destruct Htype as [H|[H|[H|(n & -> & Hn)]]].
    + destruct x; try discriminate. reflexivity.
    + destruct x; try discriminate. simpl. destruct b; reflexivity.
    + destruct x; try discriminate. simpl. unfold stringEqual.
      rewrite string_eqb_refl. reflexivity.
    + simpl. unfold F64.eqb, SFeqb. rewrite (SFcompare_refl n Hn).
      reflexivity.
  - intros ->. reflexivity.
Qed.

(** [primitiveEquals("a", "a")]. *)
Lemma primitiveEquals_reflexive_witness :
  getValue noCalls (strp "a") = Ok (valueString "a")
  /\ (primitiveEquals noCalls (strp "a") (strp "a") []).1
     = Ok (valueBoolean true).
Proof.
  split; [reflexivity|].
  apply (proj1 (primitiveEquals_reflexive noCalls (strp "a")
                  (valueString "a") [] eq_refl)).
  right. right. left. reflexivity.
Defined.

(** X24: [<] on numbers is never true both ways, nor together with
    equality; and [<] between a number and a string, either way round, is
    a type error. *)
Theorem builtinLess_asymmetric
    (call_ : evalCallable -> list potentialValue -> result value)
    xp yp st :
  (forall x y, getValue call_ xp = Ok (valueNumber x) ->
     getValue call_ yp = Ok (valueNumber y) ->
     (builtinLess call_ xp yp st).1 = Ok (valueBoolean true) ->
     (builtinLess call_ yp xp st).1 = Ok (valueBoolean false)
     /\ (primitiveEquals call_ xp yp st).1 = Ok (valueBoolean false))
  /\ (forall x s, getValue call_ xp = Ok (valueNumber x) ->
      getValue call_ yp = Ok (valueString s) ->
      (builtinLess call_ xp yp st).1 = Err (TypeError (Some "number") "string")
      /\ (builtinLess call_ yp xp st).1
         = Err (TypeError (Some "string") "number")).
Proof.
  split.
  - intros x y Hx Hy.
    unfold builtinLess, primitiveEquals, evaluateNumber, bind, evaluate.
    rewrite Hx, Hy. simpl.
    unfold F64.ltb, F64.eqb, SFltb, SFeqb. rewrite (SFcompare_antisym x y).
    destruct (SFcompare x y) as [[]|]; simpl; try discriminate. auto.
  - intros x s Hx Hy.
    unfold builtinLess, evaluateNumber, evaluateString, bind, evaluate.
    rewrite Hx, Hy. simpl. auto.
Qed.

(** [1 < 2], and then not [2 < 1]. *)
Lemma builtinLess_asymmetric_witness :
  getValue noCalls (number 1) = Ok (valueNumber (F64.of_Z 1))
  /\ getValue noCalls (number 2) = Ok (valueNumber (F64.of_Z 2))
  /\ (builtinLess noCalls (number 1) (number 2) []).1 = Ok (valueBoolean true)
  /\ (builtinLess noCalls (number 2) (number 1) []).1 = Ok (valueBoolean false).
Proof.
  split; [reflexivity|]. split; [reflexivity|]. split; [reflexivity|].
  apply (proj1 (builtinLess_asymmetric noCalls (number 1) (number 2) [])
               (F64.of_Z 1) (F64.of_Z 2) eq_refl eq_refl).
  reflexivity.
Defined.
